(** * Cluster coordination core of MyGeoEyeV4: [src/server/clusterManager.py]

    A shallow embedding of the [clusterManager] class and the properties of
    its registry, health sweep, round-robin selector and distributed
    executor.

    Modelling conventions.
    - Nodes are Python dicts.  A dict is a finite map from string keys to
      values; the registry [self.nodes] is a list of *references* to dicts,
      and the dicts live in a store indexed by object identity, because
      [add_node] and the health sweep mutate the caller's dict in place.
    - [time.time()] and [str(uuid.uuid4())] are inputs of the operation that
      calls them ([now], [uid]): the environment chooses them.
    - Timestamps are integers (ticks); the source subtracts and compares
      them, nothing else.
    - Logging is omitted, except where formatting the log message reads a
      dict key and can therefore raise.
    - The methods are first embedded as sequential functions.  For the
      lock discipline, each method is also given as the sequence of its
      steps between which another thread can run, and threads interleave
      these steps; the two embeddings are related for the selection
      ([select_thread_alone]).
    - Of [src/client/performanceMonitor.py], the recording of execution
      times ([measure_execution_time], [reset_metrics]) is embedded; the
      statistics of [get_performance_metrics] are floating-point and are
      left out. *)

From Stdlib Require Import ZArith Lia.
From stdpp Require Import base option list gmap strings pretty functions.

Local Open Scope Z_scope.

(** ** Python values, exceptions, dicts *)

Inductive value :=
  | VStr (s : string)
  | VNum (z : Z)
  | VNone.

#[global] Instance value_eq_dec : EqDecision value.
Proof. solve_decision. Defined.

(** The exceptions the class can raise.  [InsufficientCapacity m] is the
    source's [Exception(f"Cluster nao possui {min_nodes} nos saudaveis")];
    [ValueError] is what [ThreadPoolExecutor] raises for [max_workers <= 0]. *)
Inductive exn :=
  | KeyError (k : string)
  | TypeError
  | IndexError
  | ValueError
  | InsufficientCapacity (min_nodes : Z).

#[global] Instance exn_eq_dec : EqDecision exn.
Proof. solve_decision. Defined.

Inductive result (A : Type) :=
  | Ok (a : A)
  | Raise (e : exn).
Arguments Ok {A} a.
Arguments Raise {A} e.

#[global] Instance result_ret : MRet result := λ A a, Ok a.
#[global] Instance result_bind : MBind result := λ A B f r,
  match r with
  | Ok a => f a
  | Raise e => Raise e
  end.

#[global] Instance result_fmap : FMap result := λ A B f r,
  match r with
  | Ok a => Ok (f a)
  | Raise e => Raise e
  end.

Abbreviation dict := (gmap string value).

(** Object identity of a dict. *)
Definition loc := nat.

(** [d[k]] *)
Definition getitem (d : dict) (k : string) : result value :=
  match d !! k with
  | Some v => Ok v
  | None => Raise (KeyError k)
  end.

(** [current_time - v] for a float [current_time] *)
Definition py_sub (current_time : Z) (v : value) : result Z :=
  match v with
  | VNum t => Ok (current_time - t)
  | _ => Raise TypeError
  end.

(** A list comprehension [[x for x in l if p x]] whose condition can raise. *)
Fixpoint comprehension {A} (p : A → result bool) (l : list A) : result (list A) :=
  match l with
  | [] => Ok []
  | x :: rest =>
      b ← p x;
      kept ← comprehension p rest;
      Ok (if b : bool then x :: kept else kept)
  end.

(** ** The manager *)

Record clusterManager := {
  heap : loc → dict;
  nodes : list loc;
  node_timeout : Z;
  health_check_interval : Z
}.

Definition set_heap (h : loc → dict) (s : clusterManager) : clusterManager :=
  {| heap := h; nodes := nodes s;
     node_timeout := node_timeout s;
     health_check_interval := health_check_interval s |}.

Definition set_nodes (ns : list loc) (s : clusterManager) : clusterManager :=
  {| heap := heap s; nodes := ns;
     node_timeout := node_timeout s;
     health_check_interval := health_check_interval s |}.

(** [__init__]: [self.nodes = initial_nodes or []], stored as they are. *)
Definition init (h : loc → dict) (initial_nodes : list loc) : clusterManager :=
  {| heap := h; nodes := initial_nodes;
     node_timeout := 30; health_check_interval := 60 |}.

(** [add_node]: writes [id], [last_heartbeat], [status] into the caller's
    dict, appends the reference, returns the id. *)
Definition add_node (node_info : loc) (uid : string) (now : Z)
    (s : clusterManager) : string * clusterManager :=
  let d := heap s node_info in
  let d := <["id" := VStr uid]> d in
  let d := <["last_heartbeat" := VNum now]> d in
  let d := <["status" := VStr "active"]> d in
  (uid, set_nodes (nodes s ++ [node_info]) (set_heap (<[node_info := d]> (heap s)) s)).

(** [remove_node]: rebuilds the list without the nodes carrying [node_id];
    reading [node['id']] raises on a dict without that key, and then the
    list is not reassigned. *)
Definition remove_node (node_id : string) (s : clusterManager)
    : result unit * clusterManager :=
  match comprehension
          (λ l, i ← getitem (heap s l) "id"; Ok (bool_decide (i ≠ VStr node_id)))
          (nodes s) with
  | Ok kept => (Ok (), set_nodes kept s)
  | Raise e => (Raise e, s)
  end.

(** The condition of the comprehension of [get_healthy_nodes]; [and]
    short-circuits, so [last_heartbeat] is read for active nodes only. *)
Definition node_is_healthy (timeout now : Z) (d : dict) : result bool :=
  st ← getitem d "status";
  if decide (st = VStr "active") then
    hb ← getitem d "last_heartbeat";
    age ← py_sub now hb;
    Ok (bool_decide (age < timeout))
  else Ok false.

Definition get_healthy_nodes (min_nodes : Z) (now : Z) (s : clusterManager)
    : result (list loc) :=
  healthy_nodes ← comprehension
      (λ l, node_is_healthy (node_timeout s) now (heap s l)) (nodes s);
  if decide (Z.of_nat (length healthy_nodes) < min_nodes)
  then Raise (InsufficientCapacity min_nodes)
  else Ok healthy_nodes.

(** [self.nodes.append(self.nodes.pop(0))] *)
Definition rotate (ns : list loc) : result (list loc) :=
  match ns with
  | [] => Raise IndexError
  | first :: rest => Ok (rest ++ [first])
  end.

(** [select_node_for_operation]: the exceptions of the filtering leave the
    registry as it was; the log line after the rotation reads
    [selected_node['id']]. *)
Definition select_node_for_operation (now : Z) (s : clusterManager)
    : result loc * clusterManager :=
  match get_healthy_nodes 1 now s with
  | Raise e => (Raise e, s)
  | Ok healthy_nodes =>
      match healthy_nodes with
      | [] => (Raise IndexError, s)
      | selected_node :: _ =>
          match rotate (nodes s) with
          | Raise e => (Raise e, s)
          | Ok ns =>
              let s' := set_nodes ns s in
              (_ ← getitem (heap s' selected_node) "id"; Ok selected_node, s')
          end
      end
  end.

(** One pass of the [for] loop of [_health_check] over the nodes [ls]: the
    store after the pass, and the exception that ended it early, if any.
    The warning logged after a flip reads [node['id']]. *)
Fixpoint sweep_loop (timeout now : Z) (h : loc → dict) (ls : list loc)
    : (loc → dict) * option exn :=
  match ls with
  | [] => (h, None)
  | l :: rest =>
      match hb ← getitem (h l) "last_heartbeat"; py_sub now hb with
      | Raise e => (h, Some e)
      | Ok age =>
          if decide (age > timeout) then
            let h' := <[l := <["status" := VStr "inactive"]> (h l)]> h in
            match getitem (h' l) "id" with
            | Raise e => (h', Some e)
            | Ok _ => sweep_loop timeout now h' rest
            end
          else sweep_loop timeout now h rest
      end
  end.

(** One iteration of the [while True] of [_health_check] (one sweep): the
    exception, if any, is the one the [except] clause logs and swallows. *)
Definition health_sweep (now : Z) (s : clusterManager)
    : clusterManager * option exn :=
  let '(h, logged) := sweep_loop (node_timeout s) now (heap s) (nodes s) in
  (set_heap h s, logged).

(** ** Distributed executor *)

(** What one invocation [operation(node, data)] does: it returns a value or
    raises an [Exception] whose [str] is [msg].  The operation is taken to
    be a function of the node's content and the payload (it does not write
    to the registry). *)
Inductive op_result :=
  | Returned (v : value)
  | Raised (msg : string).

(** The dicts appended to [results]. *)
Inductive outcome :=
  | Success (node_id : value) (res : value)
  | Failed (node_id : value) (error : string).




(** [l[:n]] *)
Definition slice_to {A} (n : Z) (l : list A) : list A :=
  if decide (n < 0) then take (length l - Z.to_nat (- n)) l
  else take (Z.to_nat n) l.

(** The futures, in submission order, each with its node. *)
Definition submit (operation : dict → value → op_result) (data : value)
    (s : clusterManager) (selected : list loc) : list (loc * op_result) :=
  map (λ l, (l, operation (heap s l) data)) selected.

(** [as_completed(futures)] yields the futures in the order they finish;
    [completion] is that order, as positions in the submission order. *)
Definition as_completed {A} (completion : list nat) (futures : list A) : list A :=
  omap (λ i, futures !! i) completion.

(** The loop over the completed futures.  [node['id']] is read in the [try]
    and again in the [except] branch, so a node without [id] makes the
    whole call raise. *)
Fixpoint collect (s : clusterManager) (fs : list (loc * op_result))
    : result (list outcome) :=
  match fs with
  | [] => Ok []
  | (l, r) :: rest =>
      i ← getitem (heap s l) "id";
      let o := match r with
               | Returned v => Success i v
               | Raised msg => Failed i msg
               end in
      results ← collect s rest;
      Ok (o :: results)
  end.

Definition perform_distributed_operation
    (operation : dict → value → op_result) (data : value)
    (max_concurrent_nodes : Z) (now : Z) (completion : list nat)
    (s : clusterManager) : result (list outcome) :=
  healthy_nodes ← get_healthy_nodes 1 now s;
  if decide (max_concurrent_nodes ≤ 0) then Raise ValueError
  else collect s (as_completed completion
                    (submit operation data s
                       (slice_to max_concurrent_nodes healthy_nodes))).

(** ** The data model of the specification *)

(** A dict that carries the fields of a registered node: a string [id], a
    numeric [last_heartbeat] and a [status] that is active or inactive. *)
Definition is_node (d : dict) : bool :=
  match d !! "id", d !! "last_heartbeat", d !! "status" with
  | Some (VStr _), Some (VNum _), Some (VStr st) =>
      bool_decide (st = "active" ∨ st = "inactive")
  | _, _, _ => false
  end.

(** Every entry of the registry is a node of the data model. *)
Definition registry_ok (s : clusterManager) : Prop :=
  Forall (λ l, is_node (heap s l) = true) (nodes s).

(** An active node with a fresh heartbeat. *)
Definition fresh_active (timeout now : Z) (d : dict) : bool :=
  match d !! "status", d !! "last_heartbeat" with
  | Some st, Some (VNum t) =>
      bool_decide (st = VStr "active") && bool_decide (now - t < timeout)
  | _, _ => false
  end.

(** The liveness-filtered view of the registry, in registry order. *)
Definition healthy_view (now : Z) (s : clusterManager) : list loc :=
  filter (λ l, fresh_active (node_timeout s) now (heap s l) = true) (nodes s).

(** The [id] entries along the registry sequence. *)
Definition registry_ids (s : clusterManager) : list (option value) :=
  map (λ l, heap s l !! "id") (nodes s).

(** ** Sequences of calls *)

Inductive call :=
  | AddNode (node_info : loc) (uid : string) (now : Z)
  | RemoveNode (node_id : string)
  | SelectNode (now : Z)
  | HealthSweep (now : Z).

(** Runs the calls in order; returns the ids returned by the [AddNode]
    calls, in order, and the final manager. *)
Fixpoint run_calls (cs : list call) (s : clusterManager)
    : list string * clusterManager :=
  match cs with
  | [] => ([], s)
  | AddNode l uid now :: cs' =>
      let '(i, s') := add_node l uid now s in
      let '(ids, s'') := run_calls cs' s' in
      (i :: ids, s'')
  | RemoveNode i :: cs' => run_calls cs' (snd (remove_node i s))
  | SelectNode now :: cs' => run_calls cs' (snd (select_node_for_operation now s))
  | HealthSweep now :: cs' => run_calls cs' (fst (health_sweep now s))
  end.

(** The values [uuid4] produced for the calls. *)
Definition generated_ids (cs : list call) : list string :=
  omap (λ c, match c with AddNode _ uid _ => Some uid | _ => None end) cs.

(** No [AddNode] call is given a dict that is in the registry at the time
    of the call. *)
Fixpoint no_readmission (cs : list call) (s : clusterManager) : Prop :=
  match cs with
  | [] => True
  | c :: cs' =>
      match c with
      | AddNode l _ _ => l ∉ nodes s
      | _ => True
      end ∧ no_readmission cs' (snd (run_calls [c] s))
  end.

(** [n] consecutive [select_node_for_operation] calls at time [now]: the
    results, in order, and the final manager. *)
Fixpoint select_n (n : nat) (now : Z) (s : clusterManager)
    : list (result loc) * clusterManager :=
  match n with
  | O => ([], s)
  | S n' =>
      let '(r, s') := select_node_for_operation now s in
      let '(rs, s'') := select_n n' now s' in
      (r :: rs, s'')
  end.

(** ** Scenarios *)

(** The heartbeat refresh that the scenarios of the specification simulate:
    the refresh signal is external to the class, a test writes the field
    of the node's dict. *)
Definition refresh_heartbeat (l : loc) (now : Z) (s : clusterManager)
    : clusterManager :=
  set_heap (<[l := <["last_heartbeat" := VNum now]> (heap s l)]> (heap s)) s.

Definition empty_heap : loc → dict := λ _, ∅.

Definition node_A : loc := 0%nat.
Definition node_B : loc := 1%nat.
Definition node_C : loc := 2%nat.

(** A, B, C registered in that order at time 0. *)
Definition registered_ABC : clusterManager :=
  snd (run_calls [AddNode node_A "id-A" 0; AddNode node_B "id-B" 0;
                  AddNode node_C "id-C" 0] (init empty_heap [])).

(** At time 35, A and C have been refreshed, B has not; a sweep runs at
    time 40. *)
Definition swept_ABC : clusterManager :=
  fst (health_sweep 40
         (refresh_heartbeat node_C 35 (refresh_heartbeat node_A 35 registered_ABC))).

(** B, A, C registered in that order, B at time 0 and A, C at time 35; a
    sweep runs at time 40. *)
Definition swept_BAC : clusterManager :=
  snd (run_calls [AddNode node_B "id-B" 0; AddNode node_A "id-A" 35;
                  AddNode node_C "id-C" 35; HealthSweep 40] (init empty_heap [])).

(** A manager built from one initial entry that already carries [status]
    and [last_heartbeat]. *)
Definition preset_heap : loc → dict :=
  λ _, <["status" := VStr "active"]> (<["last_heartbeat" := VNum 0]> ∅).

Definition preset_manager : clusterManager := init preset_heap [node_A].

(** The dicts passed to [AddNode] in a sequence of calls. *)
Definition added_dicts (cs : list call) : list loc :=
  omap (λ c, match c with AddNode l _ _ => Some l | _ => None end) cs.

(** A dict without the three fields that [add_node] assigns. *)
Definition unassigned (d : dict) : Prop :=
  d !! "id" = None ∧ d !! "status" = None ∧ d !! "last_heartbeat" = None.




Definition probe : dict → value → op_result := λ _ _, Returned VNone.

(** An operation that fails on the node whose id is ["id-A"]. *)
Definition fails_on_A : dict → value → op_result :=
  λ d _, if decide (d !! "id" = Some (VStr "id-A")) then Raised "boom"
         else Returned VNone.

(** The invariant: the ids along the registry are distinct and were all
    generated before. *)
Definition ids_generated (used : list string) (s : clusterManager) : Prop :=
  NoDup (registry_ids s) ∧
  ∀ l, l ∈ nodes s → ∃ u, u ∈ used ∧ heap s l !! "id" = Some (VStr u).

(** A sequence of calls that passes the same dict to [add_node] twice. *)
Definition admit_twice : list call :=
  [AddNode node_A "id-1" 0; AddNode node_A "id-2" 1].

(** ** Threads and locks *)

(** The two [threading.Lock] objects of the manager. *)
Inductive lock :=
  | NodesLock          (* self._nodes_lock *)
  | HealthCheckLock.   (* self._health_check_lock *)

#[global] Instance lock_eq_dec : EqDecision lock.
Proof. solve_decision. Defined.

(** The steps of the methods between which another thread can run. *)
Inductive instr :=
  | Acquire (lk : lock)                     (* entering [with lk:] *)
  | Release (lk : lock)                     (* leaving it *)
  | SetItem (l : loc) (k : string) (v : value)   (* node_info[k] = v *)
  | Append (l : loc)                        (* self.nodes.append(node_info) *)
  | RemoveAssign (node_id : string)         (* self.nodes = [...] *)
  | ReadHealthy (min_nodes now : Z)         (* self.get_healthy_nodes(min_nodes) *)
  | PickFirst                               (* selected_node = healthy_nodes[0] *)
  | Pop0                                    (* self.nodes.pop(0) *)
  | AppendPopped                            (* self.nodes.append(<popped>) *)
  | LogSelected                             (* logging.info(... selected_node['id']) *)
  | Sweep (now : Z).                        (* the [for] loop of one sweep *)

Inductive method :=
  | MAddNode (node_info : loc) (uid : string) (now : Z)
  | MRemoveNode (node_id : string)
  | MSelectNode (now : Z)
  | MHealthSweep (now : Z)
  | MGetHealthyNodes (min_nodes now : Z).

(** The body of a method, without the lock. *)
Definition method_body (m : method) : list instr :=
  match m with
  | MAddNode l uid now =>
      [SetItem l "id" (VStr uid); SetItem l "last_heartbeat" (VNum now);
       SetItem l "status" (VStr "active"); Append l]
  | MRemoveNode i => [RemoveAssign i]
  | MSelectNode now => [ReadHealthy 1 now; PickFirst; Pop0; AppendPopped; LogSelected]
  | MHealthSweep now => [Sweep now]
  | MGetHealthyNodes m now => [ReadHealthy m now]
  end.

(** The lock a method takes around its body: [add_node], [remove_node] and
    [select_node_for_operation] take [_nodes_lock], the sweep takes
    [_health_check_lock], [get_healthy_nodes] takes none. *)
Definition method_lock (m : method) : option lock :=
  match m with
  | MAddNode _ _ _ | MRemoveNode _ | MSelectNode _ => Some NodesLock
  | MHealthSweep _ => Some HealthCheckLock
  | MGetHealthyNodes _ _ => None
  end.

Definition method_prog (m : method) : list instr :=
  match method_lock m with
  | Some lk => Acquire lk :: method_body m ++ [Release lk]
  | None => method_body m
  end.

(** A thread: what is left of its method, and its local variables. *)
Record thread := {
  prog : list instr;
  healthy_var : option (list loc);
  selected_var : option loc;
  popped_var : option loc;
  raised : option exn
}.

Definition spawn (m : method) : thread :=
  {| prog := method_prog m; healthy_var := None; selected_var := None;
     popped_var := None; raised := None |}.

Definition set_prog (p : list instr) (t : thread) : thread :=
  {| prog := p; healthy_var := healthy_var t; selected_var := selected_var t;
     popped_var := popped_var t; raised := raised t |}.

Definition abort (e : exn) (t : thread) : thread :=
  {| prog := []; healthy_var := healthy_var t; selected_var := selected_var t;
     popped_var := popped_var t; raised := Some e |}.

(** One step of a body: the thread's variables and the manager after it. *)
Definition exec (ins : instr) (t : thread) (s : clusterManager)
    : result (thread * clusterManager) :=
  match ins with
  | Acquire _ | Release _ => Ok (t, s)
  | SetItem l k v => Ok (t, set_heap (<[l := <[k := v]> (heap s l)]> (heap s)) s)
  | Append l => Ok (t, set_nodes (nodes s ++ [l]) s)
  | RemoveAssign i =>
      match remove_node i s with
      | (Ok _, s') => Ok (t, s')
      | (Raise e, _) => Raise e
      end
  | ReadHealthy m now =>
      hs ← get_healthy_nodes m now s;
      Ok ({| prog := prog t; healthy_var := Some hs; selected_var := selected_var t;
             popped_var := popped_var t; raised := raised t |}, s)
  | PickFirst =>
      match healthy_var t with
      | Some (x :: _) =>
          Ok ({| prog := prog t; healthy_var := healthy_var t; selected_var := Some x;
                 popped_var := popped_var t; raised := raised t |}, s)
      | _ => Raise IndexError
      end
  | Pop0 =>
      match nodes s with
      | [] => Raise IndexError
      | first :: rest =>
          Ok ({| prog := prog t; healthy_var := healthy_var t;
                 selected_var := selected_var t;
                 popped_var := Some first; raised := raised t |}, set_nodes rest s)
      end
  | AppendPopped =>
      match popped_var t with
      | Some x => Ok (t, set_nodes (nodes s ++ [x]) s)
      | None => Raise IndexError
      end
  | LogSelected =>
      match selected_var t with
      | Some x => _ ← getitem (heap s x) "id"; Ok (t, s)
      | None => Raise IndexError
      end
  | Sweep now => Ok (t, fst (health_sweep now s))
  end.

Record config := {
  mgr : clusterManager;
  owner : lock → option nat;
  threads : list thread
}.

Definition initial (pool : list method) (s : clusterManager) : config :=
  {| mgr := s; owner := λ _, None; threads := spawn <$> pool |}.

(** Leaving a [with] block by an exception releases its lock. *)
Definition release_all (i : nat) (o : lock → option nat) : lock → option nat :=
  λ lk, if decide (o lk = Some i) then None else o lk.

(** Thread [i] makes its next step; [None] when it has finished or waits
    for a lock ([threading.Lock] is not reentrant). *)
Definition sched_step (i : nat) (c : config) : option config :=
  match threads c !! i with
  | None => None
  | Some t =>
      match prog t with
      | [] => None
      | Acquire lk :: rest =>
          match owner c lk with
          | Some _ => None
          | None =>
              Some {| mgr := mgr c; owner := <[lk := Some i]> (owner c);
                      threads := <[i := set_prog rest t]> (threads c) |}
          end
      | Release lk :: rest =>
          Some {| mgr := mgr c; owner := <[lk := None]> (owner c);
                  threads := <[i := set_prog rest t]> (threads c) |}
      | ins :: rest =>
          match exec ins t (mgr c) with
          | Ok (t', s') =>
              Some {| mgr := s'; owner := owner c;
                      threads := <[i := set_prog rest t']> (threads c) |}
          | Raise e =>
              Some {| mgr := mgr c; owner := release_all i (owner c);
                      threads := <[i := abort e t]> (threads c) |}
          end
      end
  end.

Definition step (c c' : config) : Prop := ∃ i, sched_step i c = Some c'.

Definition reachable (c0 c : config) : Prop := rtc step c0 c.

(** Runs a schedule: the thread to step at each turn. *)
Fixpoint run_schedule (sched : list nat) (c : config) : option config :=
  match sched with
  | [] => Some c
  | i :: rest => c' ← sched_step i c; run_schedule rest c'
  end.

(** A thread is in the middle of its method: it has started it and has not
    finished it. *)
Definition mid_method (m : method) (t : thread) : Prop :=
  prog t ≠ [] ∧ prog t ≠ method_prog m.

Definition lock_free (p : list instr) : Prop :=
  ∀ lk, (Acquire lk ∉ p) ∧ (Release lk ∉ p).

(** ** Lock discipline *)

(** What holds of thread [i], running method [m], in every reachable
    configuration: it has not started and owns no lock; or it is inside the
    block of its lock and owns exactly that lock; or it runs without a lock
    (a method that takes none, or a finished one). *)
Definition thread_inv (o : lock → option nat) (i : nat) (m : method)
    (t : thread) : Prop :=
  (prog t = method_prog m ∧ ∀ lk, o lk ≠ Some i) ∨
  (∃ lk rest, method_lock m = Some lk ∧ prog t = rest ++ [Release lk] ∧
              lock_free rest ∧ ∀ lk', o lk' = Some i ↔ lk' = lk) ∨
  (lock_free (prog t) ∧ (∀ lk, o lk ≠ Some i) ∧
   (is_Some (method_lock m) → prog t = [])).

Definition config_inv (pool : list method) (c : config) : Prop :=
  ∀ i t, threads c !! i = Some t →
         ∃ m, pool !! i = Some m ∧ thread_inv (owner c) i m t.

(** A and C registered at time 0, both healthy at time 0. *)
Definition registered_AC : clusterManager :=
  snd (run_calls [AddNode node_A "id-A" 0; AddNode node_C "id-C" 0]
         (init empty_heap [])).

(** A selection, a sweep and a direct read of the healthy nodes run in
    three threads; the selection is interrupted between its [pop(0)] and
    its [append], the sweep enters its block, and the read runs. *)
Definition three_threads : list method :=
  [MSelectNode 0; MHealthSweep 0; MGetHealthyNodes 1 0].

Definition interrupted_rotation : list nat := [0; 0; 0; 0; 1; 2]%nat.

(** Two calls that take the same lock, in two threads. *)
Definition two_writers : list method :=
  [MSelectNode 0; MAddNode node_B "id-B" 0].

(** Runs thread 0 alone, for at most [fuel] steps. *)
Fixpoint run_alone (fuel : nat) (c : config) : config :=
  match fuel with
  | O => c
  | S n =>
      match sched_step 0 c with
      | Some c' => run_alone n c'
      | None => c
      end
  end.

(** What a finished thread hands back to its caller. *)
Definition thread_result (t : thread) : result (option loc) :=
  match raised t with
  | Some e => Raise e
  | None => Ok (selected_var t)
  end.

(** A dict on which the test of [get_healthy_nodes] can be evaluated: it
    carries a [status], and a numeric [last_heartbeat] when that status is
    active (the heartbeat is read for active nodes only). *)
Definition checkable (d : dict) : bool :=
  match d !! "status" with
  | None => false
  | Some st =>
      if decide (st = VStr "active") then
        match d !! "last_heartbeat" with
        | Some (VNum _) => true
        | _ => false
        end
      else true
  end.

(** A manager built from one initial node that has none of the fields,
    and the same manager after A has been admitted. *)
Definition raw_registry : clusterManager := init empty_heap [node_B].

Definition raw_then_admitted : clusterManager :=
  snd (run_calls [AddNode node_A "id-A" 0] raw_registry).

(** The calls as the callers make them: the id of an admission is not an
    argument, [add_node] draws it from [uuid4]. *)
Inductive request :=
  | ReqAddNode (node_info : loc) (now : Z)
  | ReqRemoveNode (node_id : string)
  | ReqSelectNode (now : Z)
  | ReqHealthSweep (now : Z).

(** The calls with the ids drawn: [uuid4 n] is the value of the draw
    number [n] of [str(uuid.uuid4())], and [drawn] draws were made
    before. *)
Fixpoint draw_ids (uuid4 : nat → string) (drawn : nat) (rs : list request)
    : list call :=
  match rs with
  | [] => []
  | ReqAddNode l now :: rs' =>
      AddNode l (uuid4 drawn) now :: draw_ids uuid4 (S drawn) rs'
  | ReqRemoveNode i :: rs' => RemoveNode i :: draw_ids uuid4 drawn rs'
  | ReqSelectNode now :: rs' => SelectNode now :: draw_ids uuid4 drawn rs'
  | ReqHealthSweep now :: rs' => HealthSweep now :: draw_ids uuid4 drawn rs'
  end.

(** A generator that never repeats, for the examples. *)
Definition numbered_uuid : nat → string := λ n, pretty n.

(** Requests that register A and B, remove the first id drawn and register
    A again. *)
Definition readmit_requests : list request :=
  [ReqAddNode node_A 0; ReqAddNode node_B 0; ReqRemoveNode (numbered_uuid 0);
   ReqAddNode node_A 1].

(** Two initial nodes that come with the same id. *)
Definition twin_heap : loc → dict := λ _, <["id" := VStr "n-1"]> ∅.

Definition twin_manager : clusterManager := init twin_heap [node_A; node_B].

(** A generator that repeats. *)
Definition repeating_uuid : nat → string := λ _, "same".

(** ** Further definitions *)

(** A heartbeat older than the timeout: the test of the sweep. *)
Definition stale (timeout now : Z) (d : dict) : bool :=
  match d !! "last_heartbeat" with
  | Some (VNum t) => bool_decide (now - t > timeout)
  | _ => false
  end.

(** The ['node_id'] entry of an outcome. *)
Definition outcome_node_id (o : outcome) : value :=
  match o with
  | Success i _ => i
  | Failed i _ => i
  end.

(** The outcome the dispatch records for node [l]. *)
Definition expected_outcome (operation : dict → value → op_result)
    (data : value) (s : clusterManager) (l : loc) : outcome :=
  let i := default VNone (heap s l !! "id") in
  match operation (heap s l) data with
  | Returned v => Success i v
  | Raised msg => Failed i msg
  end.

(** Every lock that is taken belongs to a thread that still has to
    release it. *)
Definition owner_inv (c : config) : Prop :=
  ∀ lk j, owner c lk = Some j →
          ∃ t rest, threads c !! j = Some t ∧ prog t = rest ++ [Release lk].

(** ** The performance monitor: [src/client/performanceMonitor.py] *)

(** The four lists of execution times. *)
Record PerformanceMonitor := {
  upload_times : list Z;
  download_times : list Z;
  list_times : list Z;
  delete_times : list Z
}.

(** [measure_execution_time]: [outcome] is what the call of [operation]
    on its arguments does, [start_time] and [end_time] are the
    two readings of [time.time()] (the second is taken only when the
    operation returns).  The execution time goes to the list of the
    operation type, to none for another type; an exception of the operation
    is raised again and nothing is recorded. *)
Definition measure_execution_time (outcome : op_result)
    (start_time end_time : Z) (operation_type : string)
    (m : PerformanceMonitor) : op_result * PerformanceMonitor :=
  match outcome with
  | Raised msg => (Raised msg, m)
  | Returned res =>
      let execution_time := end_time - start_time in
      let m' :=
        if decide (operation_type = "upload") then
          {| upload_times := upload_times m ++ [execution_time];
             download_times := download_times m;
             list_times := list_times m; delete_times := delete_times m |}
        else if decide (operation_type = "download") then
          {| upload_times := upload_times m;
             download_times := download_times m ++ [execution_time];
             list_times := list_times m; delete_times := delete_times m |}
        else if decide (operation_type = "list") then
          {| upload_times := upload_times m;
             download_times := download_times m;
             list_times := list_times m ++ [execution_time];
             delete_times := delete_times m |}
        else if decide (operation_type = "delete") then
          {| upload_times := upload_times m;
             download_times := download_times m;
             list_times := list_times m;
             delete_times := delete_times m ++ [execution_time] |}
        else m in
      (Returned res, m')
  end.

(** [reset_metrics] *)
Definition reset_metrics (m : PerformanceMonitor) : PerformanceMonitor :=
  {| upload_times := []; download_times := []; list_times := [];
     delete_times := [] |}.

(** One call of [measure_execution_time]. *)
Record measurement := {
  m_outcome : op_result;
  m_start : Z;
  m_end : Z;
  m_type : string
}.

(** The calls in order: what each returned or raised, and the monitor at
    the end. *)
Fixpoint run_measurements (ms : list measurement) (m : PerformanceMonitor)
    : list op_result * PerformanceMonitor :=
  match ms with
  | [] => ([], m)
  | x :: ms' =>
      let '(r, m') :=
        measure_execution_time (m_outcome x) (m_start x) (m_end x) (m_type x) m in
      let '(rs, m'') := run_measurements ms' m' in
      (r :: rs, m'')
  end.

(** The execution times of the calls of type [ty] that returned. *)
Definition durations (ty : string) (ms : list measurement) : list Z :=
  omap (λ x, match m_outcome x with
             | Returned _ =>
                 if decide (m_type x = ty) then Some (m_end x - m_start x) else None
             | Raised _ => None
             end) ms.

(** * Properties *)

(** ** The liveness filter *)

Lemma comprehension_filter {A} (p : A → result bool) (q : A → bool) (l : list A) :
  Forall (λ x, p x = Ok (q x)) l →
  comprehension p l = Ok (filter (λ x, q x = true) l).
Proof.
  induction 1 as [|x l Hx _ IH]; [done|].
  rewrite filter_cons. cbn [comprehension]. rewrite Hx, IH. cbn.
  destruct (q x); by case_decide.
Qed.

Lemma comprehension_elem {A} (p : A → result bool) (l kept : list A) x :
  comprehension p l = Ok kept → x ∈ kept → p x = Ok true.
Proof.
  revert kept. induction l as [|y l IH]; intros kept; cbn.
  - intros [= <-] Hx. by apply not_elem_of_nil in Hx.
  - destruct (p y) as [b|e] eqn:Hy; cbn; [|done].
    destruct (comprehension p l) as [kept'|e]; cbn; [|done].
    intros [= <-]. destruct b.
    + intros [->|Hx]%elem_of_cons; eauto.
    + eauto.
Qed.

Lemma node_is_healthy_fresh_active timeout now (d : dict) b :
  node_is_healthy timeout now d = Ok b → b = fresh_active timeout now d.
Proof.
  unfold node_is_healthy, fresh_active, getitem.
  destruct (d !! "status") as [st|]; cbn; [|done].
  case_decide as Hst.
  - destruct (d !! "last_heartbeat") as [[| |]|]; cbn; try done.
    intros [= <-]. by rewrite (bool_decide_eq_true_2 _ Hst).
  - intros [= <-]. rewrite (bool_decide_eq_false_2 _ Hst).
    by destruct (d !! "last_heartbeat") as [[| |]|].
Qed.

Lemma is_node_healthy timeout now (d : dict) :
  is_node d = true →
  node_is_healthy timeout now d = Ok (fresh_active timeout now d).
Proof.
  unfold is_node, node_is_healthy, fresh_active, getitem.
  destruct (d !! "id") as [[| |]|]; try done.
  destruct (d !! "last_heartbeat") as [[| |]|]; try done.
  destruct (d !! "status") as [[st| |]|]; try done.
  intros _. cbn. case_decide as Hst.
  - by rewrite (bool_decide_eq_true_2 _ Hst).
  - by rewrite (bool_decide_eq_false_2 _ Hst).
Qed.

Lemma healthy_comprehension now s :
  registry_ok s →
  comprehension (λ l, node_is_healthy (node_timeout s) now (heap s l)) (nodes s)
  = Ok (healthy_view now s).
Proof.
  intros Hok. unfold healthy_view.
  apply (comprehension_filter _ (λ l, fresh_active (node_timeout s) now (heap s l))).
  induction Hok; constructor; auto using is_node_healthy.
Qed.

Lemma get_healthy_nodes_ok m now s :
  registry_ok s →
  get_healthy_nodes m now s =
    if decide (Z.of_nat (length (healthy_view now s)) < m)
    then Raise (InsufficientCapacity m) else Ok (healthy_view now s).
Proof.
  intros Hok. unfold get_healthy_nodes. by rewrite healthy_comprehension.
Qed.

Lemma get_healthy_nodes_elem m now s r l :
  get_healthy_nodes m now s = Ok r → l ∈ r →
  node_is_healthy (node_timeout s) now (heap s l) = Ok true.
Proof.
  unfold get_healthy_nodes.
  destruct (comprehension _ _) as [hs|e] eqn:Hc; cbn; [|done].
  case_decide; [done|]. intros [= <-] Hl.
  by apply (comprehension_elem _ _ _ _ Hc).
Qed.

Lemma checkable_healthy timeout now (d : dict) :
  checkable d = true →
  node_is_healthy timeout now d = Ok (fresh_active timeout now d).
Proof.
  unfold checkable, node_is_healthy, fresh_active, getitem.
  destruct (d !! "status") as [st|]; [|done]. cbn.
  case_decide as Hst.
  - destruct (d !! "last_heartbeat") as [[| |]|]; try done.
    intros _. cbn. by rewrite (bool_decide_eq_true_2 _ Hst).
  - intros _. rewrite (bool_decide_eq_false_2 _ Hst).
    by destruct (d !! "last_heartbeat") as [[| |]|].
Qed.

Lemma checkable_comprehension now s :
  Forall (λ l, checkable (heap s l) = true) (nodes s) →
  comprehension (λ l, node_is_healthy (node_timeout s) now (heap s l)) (nodes s)
  = Ok (healthy_view now s).
Proof.
  intros Hok. unfold healthy_view.
  apply (comprehension_filter _ (λ l, fresh_active (node_timeout s) now (heap s l))).
  induction Hok; constructor; auto using checkable_healthy.
Qed.

(** C4, as the code has it.  Over a registry in which every entry carries
    a status, and a numeric heartbeat when that status is active, for
    [m >= 1]: with exactly [m - 1] active fresh-heartbeat nodes
    [get_healthy_nodes m] raises the insufficient-capacity exception; with
    exactly [m] it succeeds and returns exactly those [m] nodes. *)
Theorem get_healthy_nodes_boundary (s : clusterManager) (now m : Z) :
  Forall (λ l, checkable (heap s l) = true) (nodes s) →
  1 ≤ m →
  (Z.of_nat (length (healthy_view now s)) = m - 1 →
     get_healthy_nodes m now s = Raise (InsufficientCapacity m)) ∧
  (Z.of_nat (length (healthy_view now s)) = m →
     get_healthy_nodes m now s = Ok (healthy_view now s) ∧
     length (healthy_view now s) = Z.to_nat m).
Proof.
  intros Hok Hm. unfold get_healthy_nodes.
  rewrite (checkable_comprehension _ _ Hok). cbn. split; intros Hlen.
  - case_decide; [done|lia].
  - case_decide; [lia|]. split; [done|lia].
Qed.

Lemma swept_ABC_ok : registry_ok swept_ABC.
Proof. repeat constructor. Qed.

Lemma get_healthy_nodes_boundary_witness :
  get_healthy_nodes 3 40 swept_ABC = Raise (InsufficientCapacity 3) ∧
  get_healthy_nodes 2 40 swept_ABC = Ok [node_A; node_C].
Proof.
  assert (Hok : Forall (λ l, checkable (heap swept_ABC l) = true) (nodes swept_ABC))
    by repeat constructor.
  split.
  - apply (get_healthy_nodes_boundary swept_ABC 40 3 Hok); [lia|reflexivity].
  - apply (get_healthy_nodes_boundary swept_ABC 40 2 Hok); [lia|reflexivity].
Defined.

(** C4, as stated, fails on a registry with an initial node that has no
    status, for [m = 1]: with no active fresh node the call raises the
    missing-key error instead of the insufficient-capacity exception, and
    with exactly one (the admitted A) it raises the missing-key error
    instead of returning A. *)
Lemma raw_entry_counterexample :
  (healthy_view 0 raw_registry = [] ∧
   get_healthy_nodes 1 0 raw_registry = Raise (KeyError "status")) ∧
  (healthy_view 0 raw_then_admitted = [node_A] ∧
   get_healthy_nodes 1 0 raw_then_admitted = Raise (KeyError "status")).
Proof. repeat split; reflexivity. Qed.

(** ** The health sweep *)

Lemma heap_insert_eq (h : loc → dict) l d : (<[l := d]> h) l = d.
Proof. apply fn_lookup_insert. Qed.

Lemma heap_insert_ne (h : loc → dict) l l' d : l ≠ l' → (<[l := d]> h) l' = h l'.
Proof. apply fn_lookup_insert_ne. Qed.

Lemma heap_insert_key (h : loc → dict) l l' k k' v :
  k ≠ k' → (<[l := <[k := v]> (h l)]> h) l' !! k' = h l' !! k'.
Proof.
  intros Hk. destruct (decide (l = l')) as [->|Hl].
  - by rewrite heap_insert_eq, lookup_insert_ne.
  - by rewrite heap_insert_ne.
Qed.

(** The sweep writes the key [status] only. *)
Lemma sweep_loop_frame timeout now ls (h : loc → dict) l k :
  k ≠ "status" →
  (sweep_loop timeout now h ls).1 l !! k = h l !! k.
Proof.
  intros Hk. revert h. induction ls as [|l0 ls IH]; intros h; cbn; [done|].
  destruct (getitem (h l0) "last_heartbeat") as [hb|e]; cbn; [|done].
  destruct (py_sub now hb) as [age|e]; cbn; [|done].
  case_decide; [|apply IH].
  destruct (getitem _ "id"); cbn.
  - rewrite IH. by apply heap_insert_key.
  - by apply heap_insert_key.
Qed.

(** A [status] the sweep changes is the one of a registered node with a
    stale heartbeat, and it becomes inactive. *)
Lemma sweep_loop_status timeout now ls (h : loc → dict) l :
  (sweep_loop timeout now h ls).1 l !! "status" = h l !! "status" ∨
  ((sweep_loop timeout now h ls).1 l !! "status" = Some (VStr "inactive") ∧
   l ∈ ls ∧
   ∃ t, h l !! "last_heartbeat" = Some (VNum t) ∧ now - t > timeout).
Proof.
  revert h. induction ls as [|l0 ls IH]; intros h; cbn; [by left|].
  unfold getitem.
  destruct (h l0 !! "last_heartbeat") as [hb|] eqn:Hhb; cbn; [|by left].
  destruct hb as [|t|]; cbn; try by left.
  case_decide as Hstale.
  - set (h' := <[l0 := <["status" := VStr "inactive"]> (h l0)]> h).
    assert (Hflip : h' l !! "status" = h l !! "status" ∨
              (h' l !! "status" = Some (VStr "inactive") ∧ l = l0)).
    { subst h'. destruct (decide (l0 = l)) as [->|Hne].
      - right. by rewrite heap_insert_eq, lookup_insert_eq.
      - left. by rewrite heap_insert_ne. }
    assert (Hhb' : ∀ l1, h' l1 !! "last_heartbeat" = h l1 !! "last_heartbeat").
    { intros l1. subst h'. by apply heap_insert_key. }
    assert (Hres : (sweep_loop timeout now h' ls).1 l !! "status" = h' l !! "status" ∨
              ((sweep_loop timeout now h' ls).1 l !! "status" = Some (VStr "inactive") ∧
               l ∈ l0 :: ls ∧
               ∃ t, h l !! "last_heartbeat" = Some (VNum t) ∧ now - t > timeout)).
    { destruct (IH h') as [Heq|(Hin & Hl & t' & Ht' & Hgt)]; [by left|].
      right. split; [done|]. split; [rewrite elem_of_cons; by right|].
      exists t'. by rewrite <- Hhb'. }
    fold h'. destruct (h' l0 !! "id"); cbn.
    + destruct Hres as [Heq|Hres]; [|by right].
      rewrite Heq. destruct Hflip as [Hsame|[Hin ->]]; [by left|].
      right. split; [done|]. split; [rewrite elem_of_cons; by left|]. eauto.
    + destruct Hflip as [Hsame|[Hin ->]]; [by left|].
      right. split; [done|]. split; [rewrite elem_of_cons; by left|]. eauto.
  - destruct (IH h) as [Heq|(Hin & Hl & Ht)]; [by left|].
    right. split; [done|]. split; [rewrite elem_of_cons; by right|done].
Qed.

Lemma health_sweep_heap now s :
  heap (health_sweep now s).1 = (sweep_loop (node_timeout s) now (heap s) (nodes s)).1.
Proof. unfold health_sweep. by destruct (sweep_loop _ _ _ _). Qed.

Lemma health_sweep_nodes now s : nodes (health_sweep now s).1 = nodes s.
Proof. unfold health_sweep. by destruct (sweep_loop _ _ _ _). Qed.

Lemma health_sweep_timeout now s : node_timeout (health_sweep now s).1 = node_timeout s.
Proof. unfold health_sweep. by destruct (sweep_loop _ _ _ _). Qed.

(** C7.  A health sweep keeps the registry sequence as it is, writes no
    key other than [status], changes a [status] only to inactive and only
    for a registered node whose heartbeat age exceeds the timeout, and so
    never makes a node active. *)
Theorem health_sweep_frame (s : clusterManager) (now : Z) :
  let s' := (health_sweep now s).1 in
  nodes s' = nodes s ∧
  node_timeout s' = node_timeout s ∧
  health_check_interval s' = health_check_interval s ∧
  (∀ l k, k ≠ "status" → heap s' l !! k = heap s l !! k) ∧
  (∀ l, heap s' l !! "status" ≠ heap s l !! "status" →
        heap s' l !! "status" = Some (VStr "inactive") ∧
        l ∈ nodes s ∧
        ∃ t, heap s l !! "last_heartbeat" = Some (VNum t) ∧
             now - t > node_timeout s) ∧
  (∀ l, heap s' l !! "status" = Some (VStr "active") →
        heap s l !! "status" = Some (VStr "active")).
Proof.
  cbn zeta. rewrite health_sweep_heap, health_sweep_nodes, health_sweep_timeout.
  split; [done|]. split; [done|].
  split; [unfold health_sweep; by destruct (sweep_loop _ _ _ _)|].
  split; [intros l k Hk; by apply sweep_loop_frame|]. split; intros l.
  - destruct (sweep_loop_status (node_timeout s) now (nodes s) (heap s) l)
      as [Heq|Hflip]; [done|by intros _].
  - destruct (sweep_loop_status (node_timeout s) now (nodes s) (heap s) l)
      as [Heq|[Hin _]]; [by rewrite Heq|]. rewrite Hin. done.
Qed.

(** C10.  A node whose heartbeat age equals the timeout exactly is left
    out by [get_healthy_nodes] (the test is [<]) and is not demoted by the
    sweep (the test is [>]): it stays active and is not returned, before
    and after the sweep. *)
Theorem timeout_boundary (s : clusterManager) (now t : Z) (l : loc) :
  heap s l !! "status" = Some (VStr "active") →
  heap s l !! "last_heartbeat" = Some (VNum t) →
  now - t = node_timeout s →
  node_is_healthy (node_timeout s) now (heap s l) = Ok false ∧
  (∀ m r, get_healthy_nodes m now s = Ok r → l ∉ r) ∧
  heap (health_sweep now s).1 l !! "status" = Some (VStr "active") ∧
  (∀ m r, get_healthy_nodes m now (health_sweep now s).1 = Ok r → l ∉ r).
Proof.
  intros Hst Hhb Hage.
  assert (Hnot : ∀ d : dict,
            d !! "status" = Some (VStr "active") →
            d !! "last_heartbeat" = Some (VNum t) →
            node_is_healthy (node_timeout s) now d = Ok false).
  { intros d Hd1 Hd2. unfold node_is_healthy, getitem. rewrite Hd1. cbn.
    rewrite decide_True by done. rewrite Hd2. cbn.
    by rewrite bool_decide_eq_false_2 by lia. }
  assert (Hkeep : heap (health_sweep now s).1 l !! "status" = Some (VStr "active")).
  { rewrite health_sweep_heap.
    destruct (sweep_loop_status (node_timeout s) now (nodes s) (heap s) l)
      as [Heq|(_ & _ & t' & Ht' & Hgt)]; [by rewrite Heq|].
    rewrite Hhb in Ht'. injection Ht' as <-. lia. }
  split; [by apply Hnot|]. split; [|split; [done|]].
  - intros m r Hr Hl. apply (get_healthy_nodes_elem _ _ _ _ _ Hr) in Hl.
    rewrite (Hnot _ Hst Hhb) in Hl. done.
  - intros m r Hr Hl. apply (get_healthy_nodes_elem _ _ _ _ _ Hr) in Hl.
    rewrite health_sweep_timeout in Hl. rewrite (Hnot _ Hkeep) in Hl; [done|].
    rewrite health_sweep_heap. by rewrite sweep_loop_frame.
Qed.

Lemma timeout_boundary_witness :
  node_is_healthy 30 30 (heap registered_ABC node_A) = Ok false ∧
  (∀ m r, get_healthy_nodes m 30 registered_ABC = Ok r → node_A ∉ r) ∧
  heap (health_sweep 30 registered_ABC).1 node_A !! "status" = Some (VStr "active") ∧
  (∀ m r, get_healthy_nodes m 30 (health_sweep 30 registered_ABC).1 = Ok r →
          node_A ∉ r).
Proof.
  apply (timeout_boundary registered_ABC 30 0 node_A); reflexivity.
Defined.

(** ** Initial nodes *)

Section UnassignedHead.
(** A registry whose first entry has none of the three fields. *)
Variables (s : clusterManager) (l : loc) (rest : list loc).
Hypothesis Hnodes : nodes s = l :: rest.
Hypothesis Hun : unassigned (heap s l).

Lemma unassigned_get_healthy_nodes m now :
  get_healthy_nodes m now s = Raise (KeyError "status").
Proof using Hnodes Hun.
  destruct Hun as (_ & Hst & _).
  unfold get_healthy_nodes. rewrite Hnodes. cbn.
  unfold node_is_healthy, getitem. by rewrite Hst.
Qed.

Lemma unassigned_select now :
  select_node_for_operation now s = (Raise (KeyError "status"), s).
Proof using Hnodes Hun.
  unfold select_node_for_operation. by rewrite unassigned_get_healthy_nodes.
Qed.

Lemma unassigned_remove i :
  remove_node i s = (Raise (KeyError "id"), s).
Proof using Hnodes Hun.
  destruct Hun as (Hid & _ & _).
  unfold remove_node. rewrite Hnodes. cbn. unfold getitem. by rewrite Hid.
Qed.

Lemma unassigned_sweep now :
  health_sweep now s = (s, Some (KeyError "last_heartbeat")).
Proof using Hnodes Hun.
  destruct Hun as (_ & _ & Hhb).
  unfold health_sweep. rewrite Hnodes. cbn. unfold getitem. rewrite Hhb. cbn.
  by destruct s.
Qed.
End UnassignedHead.

Lemma unassigned_head_run cs s l rest :
  nodes s = l :: rest →
  unassigned (heap s l) →
  l ∉ added_dicts cs →
  ∃ rest', nodes (run_calls cs s).2 = l :: rest' ∧
           unassigned (heap (run_calls cs s).2 l).
Proof.
  revert s rest. induction cs as [|c cs IH]; intros s rest Hnodes Hun Hadd; [by eauto|].
  destruct c as [l' uid now|i|now|now]; cbn.
  - cbn in Hadd. apply not_elem_of_cons in Hadd as [Hne Hadd].
    destruct (run_calls cs _) as [ids s''] eqn:Hrun. cbn.
    change s'' with (ids, s'').2. rewrite <- Hrun.
    apply (IH _ (rest ++ [l'])); [by cbn; rewrite Hnodes| |done].
    cbn. by rewrite heap_insert_ne.
  - rewrite (unassigned_remove s l rest) by done. by apply (IH _ rest).
  - rewrite (unassigned_select s l rest) by done. by apply (IH _ rest).
  - rewrite (unassigned_sweep s l rest) by done. by apply (IH _ rest).
Qed.

Lemma add_node_is_node l uid now s : is_node (heap (add_node l uid now s).2 l) = true.
Proof.
  cbn. rewrite heap_insert_eq. unfold is_node.
  rewrite lookup_insert_ne, lookup_insert_ne, lookup_insert_eq by done.
  rewrite lookup_insert_ne, lookup_insert_eq by done.
  rewrite lookup_insert_eq. apply bool_decide_eq_true_2. by left.
Qed.

(** C9, as the code has it.  The initial nodes are stored as they are.
    When they carry none of [id], [status], [last_heartbeat], and none of
    them is passed to [add_node] later, then after any sequence of calls
    every [get_healthy_nodes] raises the missing-key error for [status] and
    every sweep stops at the missing-key error for [last_heartbeat] and
    changes nothing; a dict that went through [add_node] has the three
    fields. *)
Theorem initial_nodes_unassigned (h : loc → dict) (initial_nodes : list loc)
    (cs : list call) :
  initial_nodes ≠ [] →
  Forall (λ l, unassigned (h l)) initial_nodes →
  Forall (λ l, l ∉ added_dicts cs) initial_nodes →
  nodes (init h initial_nodes) = initial_nodes ∧
  heap (init h initial_nodes) = h ∧
  (∀ m now,
     get_healthy_nodes m now (run_calls cs (init h initial_nodes)).2
     = Raise (KeyError "status")) ∧
  (∀ now,
     health_sweep now (run_calls cs (init h initial_nodes)).2
     = ((run_calls cs (init h initial_nodes)).2, Some (KeyError "last_heartbeat"))) ∧
  (∀ l uid now s, is_node (heap (add_node l uid now s).2 l) = true).
Proof.
  intros Hne Hun Hadd. split; [done|]. split; [done|].
  destruct initial_nodes as [|l rest]; [done|].
  inversion Hun as [|? ? Hun' _]. inversion Hadd as [|? ? Hadd' _]. subst.
  destruct (unassigned_head_run cs (init h (l :: rest)) l rest) as (rest' & Hn & Hu);
    [done..|].
  split; [|split].
  - intros m now. by apply (unassigned_get_healthy_nodes _ l rest').
  - intros now. by apply (unassigned_sweep _ l rest').
  - apply add_node_is_node.
Qed.

Lemma initial_nodes_unassigned_witness :
  (∀ m now,
     get_healthy_nodes m now
       (run_calls [AddNode node_C "id-C" 0] (init empty_heap [node_A; node_B])).2
     = Raise (KeyError "status")) ∧
  (∀ now,
     health_sweep now
       (run_calls [AddNode node_C "id-C" 0] (init empty_heap [node_A; node_B])).2
     = ((run_calls [AddNode node_C "id-C" 0] (init empty_heap [node_A; node_B])).2,
        Some (KeyError "last_heartbeat"))).
Proof.
  destruct (initial_nodes_unassigned empty_heap [node_A; node_B]
              [AddNode node_C "id-C" 0]) as (_ & _ & H1 & H2 & _).
  - done.
  - repeat constructor.
  - repeat constructor; cbn; rewrite list_elem_of_singleton; done.
  - split; [exact H1|exact H2].
Defined.

(** C9, as stated, fails for initial nodes that come with the fields: the
    entry is returned as healthy and the sweep ends without an error. *)
Lemma initial_nodes_preset_counterexample :
  nodes preset_manager ≠ [] ∧
  get_healthy_nodes 1 10 preset_manager = Ok [node_A] ∧
  (health_sweep 10 preset_manager).2 = None.
Proof. split; [done|]. split; reflexivity. Qed.

(** ** Round-robin selection *)

Lemma is_node_id (d : dict) : is_node d = true → ∃ i, d !! "id" = Some (VStr i).
Proof.
  unfold is_node. destruct (d !! "id") as [[i| |]|]; try done. eauto.
Qed.

(** What the code does on a registry of nodes: it returns the first
    healthy node, and moves the first node of the registry to the back. *)
Lemma select_node_spec s now x hs first rest :
  registry_ok s →
  healthy_view now s = x :: hs →
  nodes s = first :: rest →
  select_node_for_operation now s = (Ok x, set_nodes (rest ++ [first]) s).
Proof.
  intros Hok Hview Hnodes. unfold select_node_for_operation.
  rewrite (get_healthy_nodes_ok _ _ _ Hok), Hview.
  rewrite decide_False by (cbn; lia). rewrite Hnodes. cbn.
  assert (Hx : x ∈ nodes s).
  { assert (Hin : x ∈ healthy_view now s) by (rewrite Hview, elem_of_cons; by left).
    unfold healthy_view in Hin. by apply list_elem_of_filter in Hin as [_ ?]. }
  unfold registry_ok in Hok. rewrite Forall_forall in Hok.
  apply list_elem_of_In in Hx. destruct (is_node_id _ (Hok _ Hx)) as [i Hi].
  unfold getitem. by rewrite Hi.
Qed.

(** When the first node of the registry is healthy, it is the node
    returned and the node moved to the back. *)
Lemma select_node_head_healthy s now first rest :
  registry_ok s →
  nodes s = first :: rest →
  fresh_active (node_timeout s) now (heap s first) = true →
  select_node_for_operation now s = (Ok first, set_nodes (rest ++ [first]) s).
Proof.
  intros Hok Hnodes Hfresh.
  apply (select_node_spec _ _ _
           (filter (λ l, fresh_active (node_timeout s) now (heap s l) = true) rest));
    [done| |done].
  unfold healthy_view. rewrite Hnodes. by rewrite filter_cons_True.
Qed.

Lemma filter_all {A} (P : A → Prop) `{∀ x, Decision (P x)} (l : list A) :
  Forall P l → filter P l = l.
Proof. induction 1; [done|]. rewrite filter_cons_True by done. by f_equal. Qed.

(** Fairness holds while every node of the registry is healthy: as many
    calls as there are nodes return each node once, in registry order. *)
Lemma select_n_all_healthy now (l1 l2 : list loc) s :
  registry_ok s →
  Forall (λ l, fresh_active (node_timeout s) now (heap s l) = true) (nodes s) →
  nodes s = l1 ++ l2 →
  (select_n (length l1) now s).1 = Ok <$> l1 ∧
  nodes (select_n (length l1) now s).2 = l2 ++ l1.
Proof.
  revert l2 s. induction l1 as [|x l1 IH]; intros l2 s Hok Hall Hnodes.
  - cbn. by rewrite Hnodes, app_nil_r.
  - cbn [length select_n].
    inversion Hall as [Hnil|y ys Hx Hys Heq]; [by rewrite Hnodes in Hnil|].
    rewrite Hnodes in Heq. injection Heq as -> ->.
    rewrite (select_node_head_healthy s now x (l1 ++ l2)) by done.
    set (s' := set_nodes ((l1 ++ l2) ++ [x]) s).
    destruct (IH (l2 ++ [x]) s') as [Hres Hafter].
    + unfold registry_ok in *. subst s'. cbn.
      rewrite Hnodes in Hok. inversion Hok; subst.
      apply Forall_app. split; [done|]. by constructor.
    + subst s'. cbn. apply Forall_app. split; [done|]. by constructor.
    + subst s'. cbn. by rewrite <- app_assoc.
    + destruct (select_n (length l1) now s') as [rs s'']. cbn in *.
      rewrite Hres, Hafter. split; [done|]. by rewrite <- app_assoc.
Qed.

(** C1 on the code: with A, B, C registered in that order, B alone stale
    and demoted by a sweep, the healthy nodes are A and C, and three
    consecutive selections return A, C, C. *)
Theorem scenario_three_selections :
  get_healthy_nodes 1 40 swept_ABC = Ok [node_A; node_C] ∧
  (select_n 3 40 swept_ABC).1 = [Ok node_A; Ok node_C; Ok node_C].
Proof. split; reflexivity. Qed.

(** C2 on the code: with the inactive node B at the front of the registry
    B, A, C, the selection returns A and moves B to the back. *)
Theorem selection_moves_front_node :
  get_healthy_nodes 1 40 swept_BAC = Ok [node_A; node_C] ∧
  (select_node_for_operation 40 swept_BAC).1 = Ok node_A ∧
  nodes (select_node_for_operation 40 swept_BAC).2 = [node_A; node_C; node_B].
Proof. repeat split; reflexivity. Qed.

(** C3 on the code: the registry B, A, C with B inactive has two healthy
    nodes, and two consecutive selections return A twice. *)
Theorem two_selections_repeat_a_node :
  healthy_view 40 swept_BAC = [node_A; node_C] ∧
  (select_n 2 40 swept_BAC).1 = [Ok node_A; Ok node_A].
Proof. split; reflexivity. Qed.

(** ** Distributed executor *)

Lemma as_completed_seq {A} (pre fs : list A) :
  omap (λ i, (pre ++ fs) !! i) (seq (length pre) (length fs)) = fs.
Proof.
  revert pre. induction fs as [|x fs IH]; intros pre; [done|].
  cbn. rewrite list_lookup_middle by done. f_equal.
  specialize (IH (pre ++ [x])). rewrite length_app in IH. cbn in IH.
  rewrite <- app_assoc in IH. cbn in IH.
  by replace (length pre + 1)%nat with (S (length pre)) in IH by lia.
Qed.

Lemma as_completed_Permutation {A} (completion : list nat) (fs : list A) :
  completion ≡ₚ seq 0 (length fs) → as_completed completion fs ≡ₚ fs.
Proof.
  intros Hperm. unfold as_completed. rewrite Hperm.
  pose proof (as_completed_seq [] fs) as Hseq. cbn in Hseq. by rewrite Hseq.
Qed.










(** ** Node ids *)

Lemma run_calls_returned cs s : (run_calls cs s).1 = generated_ids cs.
Proof.
  revert s. induction cs as [|c cs IH]; intros s; [done|].
  destruct c as [l uid now|i|now|now]; cbn; try apply IH.
  specialize (IH (add_node l uid now s).2). cbn in IH.
  destruct (run_calls cs _) as [ids s'']. cbn in *. by rewrite IH.
Qed.

Lemma run_calls_cons c cs s :
  (run_calls (c :: cs) s).2 = (run_calls cs (run_calls [c] s).2).2.
Proof.
  destruct c as [l uid now|i|now|now]; cbn; try done.
  by destruct (run_calls cs _).
Qed.

Lemma run_calls_app cs1 cs2 s :
  (run_calls (cs1 ++ cs2) s).2 = (run_calls cs2 (run_calls cs1 s).2).2.
Proof.
  revert s. induction cs1 as [|c cs1 IH]; intros s; [done|].
  rewrite <- app_comm_cons, run_calls_cons, IH. by rewrite <- run_calls_cons.
Qed.

Lemma comprehension_sublist {A} (p : A → result bool) (l kept : list A) :
  comprehension p l = Ok kept → sublist kept l.
Proof.
  revert kept. induction l as [|x l IH]; intros kept; cbn.
  - by intros [= <-].
  - destruct (p x) as [b|e]; cbn; [|done].
    destruct (comprehension p l) as [kept'|e]; cbn; [|done].
    intros [= <-]. destruct b; [apply sublist_skip|apply sublist_cons]; auto.
Qed.

(** The registry after a call that is not [AddNode]: the sequence is a
    rearrangement of part of the old one, and no [id] has changed. *)
Lemma other_call_registry c s :
  match c with AddNode _ _ _ => False | _ => True end →
  (∃ ns, nodes (run_calls [c] s).2 ≡ₚ ns ∧ sublist ns (nodes s)) ∧
  (∀ l, heap (run_calls [c] s).2 l !! "id" = heap s l !! "id").
Proof.
  destruct c as [l uid now|i|now|now]; [done|intros _; cbn..].
  - unfold remove_node. destruct (comprehension _ _) as [kept|e] eqn:Hc; cbn.
    + split; [|done]. exists kept. split; [done|].
      by apply comprehension_sublist in Hc.
    + split; [|done]. by exists (nodes s).
  - unfold select_node_for_operation.
    destruct (get_healthy_nodes 1 now s) as [[|x hs]|e]; cbn;
      try (split; [by exists (nodes s)|done]).
    destruct (nodes s) as [|first rest] eqn:Hn; cbn.
    + split; [|done]. exists []. by rewrite Hn.
    + split; [|done]. exists (first :: rest). split; [|done].
      by rewrite Permutation_app_comm.
  - rewrite health_sweep_nodes, health_sweep_heap. split; [by exists (nodes s)|].
    intros l. by apply sweep_loop_frame.
Qed.

Lemma registry_ids_ext s s' (ns : list loc) :
  (∀ l, l ∈ ns → heap s' l !! "id" = heap s l !! "id") →
  (λ l, heap s' l !! "id") <$> ns = (λ l, heap s l !! "id") <$> ns.
Proof.
  intros Hext. induction ns as [|l ns IH]; [done|].
  cbn. rewrite Hext by (rewrite elem_of_cons; by left).
  f_equal. apply IH. intros l' Hl'. apply Hext. rewrite elem_of_cons. by right.
Qed.

Lemma ids_generated_add used s l uid now :
  ids_generated used s → l ∉ nodes s → uid ∉ used →
  ids_generated (used ++ [uid]) (add_node l uid now s).2.
Proof.
  intros [Hnd Hused] Hl Huid.
  assert (Hsame : ∀ l', l' ∈ nodes s →
            heap (add_node l uid now s).2 l' !! "id" = heap s l' !! "id").
  { intros l' Hl'. cbn. rewrite heap_insert_ne; [done|]. by intros ->. }
  assert (Hnew : heap (add_node l uid now s).2 l !! "id" = Some (VStr uid)).
  { cbn. rewrite heap_insert_eq.
    do 2 rewrite lookup_insert_ne by done. by rewrite lookup_insert_eq. }
  set (s' := (add_node l uid now s).2) in *.
  assert (Hn : nodes s' = nodes s ++ [l]) by done.
  clearbody s'. split.
  - unfold registry_ids in *. rewrite Hn.
    change (map ?f ?x) with (f <$> x) in *. rewrite fmap_app.
    rewrite (registry_ids_ext s _ (nodes s) Hsame).
    apply list.NoDup_app. split; [done|]. split.
    + intros i Hi Hi'. apply list_elem_of_fmap in Hi as (l' & -> & Hl').
      rewrite fmap_cons, list_elem_of_singleton, Hnew in Hi'.
      destruct (Hused _ Hl') as (u & Hu & Hid). rewrite Hid in Hi'.
      injection Hi' as ->. done.
    + apply NoDup_singleton.
  - intros l' Hl'. rewrite Hn in Hl'.
    apply elem_of_app in Hl' as [Hl'|Hl'].
    + destruct (Hused _ Hl') as (u & Hu & Hid). exists u.
      split; [apply elem_of_app; by left|]. by rewrite Hsame.
    + apply list_elem_of_singleton in Hl' as ->. exists uid.
      split; [apply elem_of_app; right; by apply list_elem_of_singleton|done].
Qed.

Lemma ids_generated_other used s c :
  match c with AddNode _ _ _ => False | _ => True end →
  ids_generated used s → ids_generated used (run_calls [c] s).2.
Proof.
  intros Hc [Hnd Hused].
  destruct (other_call_registry c s Hc) as [(ns & Hperm & Hsub) Hid].
  split.
  - unfold registry_ids in *. change (map ?f ?x) with (f <$> x) in *.
    rewrite (registry_ids_ext s _ _ (λ l _, Hid l)), Hperm.
    eapply sublist_NoDup; [exact Hnd|]. by apply fmap_sublist.
  - intros l Hl. rewrite Hperm in Hl. rewrite Hid. apply Hused.
    by eapply elem_of_sublist.
Qed.

Lemma run_calls_ids_generated cs used s :
  NoDup (used ++ generated_ids cs) →
  no_readmission cs s →
  ids_generated used s →
  ids_generated (used ++ generated_ids cs) (run_calls cs s).2.
Proof.
  revert used s. induction cs as [|c cs IH]; intros used s Hnd Hre Hinv.
  - cbn. by rewrite app_nil_r.
  - rewrite run_calls_cons. destruct Hre as [Hl Hre].
    destruct c as [l uid now|i|now|now];
      try (apply IH; [done|done|by apply ids_generated_other]).
    change (generated_ids (AddNode l uid now :: cs))
      with ([uid] ++ generated_ids cs) in *.
    rewrite app_assoc in *.
    apply IH; [done|done|]. apply ids_generated_add; [done|done|].
    apply list.NoDup_app in Hnd as (Hnd & _ & _).
    apply list.NoDup_app in Hnd as (_ & Hnd & _).
    intros Hin. apply (Hnd _ Hin). by apply list_elem_of_singleton.
Qed.

Lemma no_readmission_app cs1 cs2 s :
  no_readmission (cs1 ++ cs2) s → no_readmission cs1 s.
Proof.
  revert s. induction cs1 as [|c cs1 IH]; intros s; [done|].
  cbn [app no_readmission]. intros [Hc Hrest]. split; [done|]. by apply IH.
Qed.

(** From an empty registry: distinct generated ids give distinct returned
    ids, and distinct ids along the registry after every prefix when no
    dict is admitted while it is in the registry. *)
Lemma run_calls_ids_unique (h : loc → dict) (cs : list call) :
  NoDup (generated_ids cs) →
  NoDup (run_calls cs (init h [])).1 ∧
  (no_readmission cs (init h []) →
   ∀ cs1 cs2, cs = cs1 ++ cs2 →
     NoDup (registry_ids (run_calls cs1 (init h [])).2)).
Proof.
  intros Hnd. split; [by rewrite run_calls_returned|].
  intros Hre cs1 cs2 ->.
  apply no_readmission_app in Hre.
  unfold generated_ids in Hnd. rewrite omap_app in Hnd.
  apply list.NoDup_app in Hnd as (Hnd & _ & _).
  apply (run_calls_ids_generated cs1 [] (init h [])); [done|done|].
  split; [constructor|]. intros l Hl. by apply not_elem_of_nil in Hl.
Qed.

(** The ids drawn for a sequence of requests are consecutive draws. *)
Lemma draw_ids_generated uuid4 drawn rs :
  ∃ n, generated_ids (draw_ids uuid4 drawn rs) = uuid4 <$> seq drawn n.
Proof.
  revert drawn. induction rs as [|r rs IH]; intros drawn; [by exists 0%nat|].
  destruct r as [l now|i|now|now]; cbn [draw_ids]; try apply IH.
  destruct (IH (S drawn)) as [n Hn]. exists (S n).
  change (generated_ids (AddNode l (uuid4 drawn) now :: ?cs))
    with (uuid4 drawn :: generated_ids cs).
  by rewrite Hn.
Qed.

Lemma draw_ids_app uuid4 drawn rs1 rs2 :
  ∃ drawn', draw_ids uuid4 drawn (rs1 ++ rs2)
            = draw_ids uuid4 drawn rs1 ++ draw_ids uuid4 drawn' rs2.
Proof.
  revert drawn. induction rs1 as [|r rs1 IH]; intros drawn; [by exists drawn|].
  destruct r as [l now|i|now|now]; cbn [app draw_ids].
  - destruct (IH (S drawn)) as [d ->]. by exists d.
  - destruct (IH drawn) as [d ->]. by exists d.
  - destruct (IH drawn) as [d ->]. by exists d.
  - destruct (IH drawn) as [d ->]. by exists d.
Qed.

(** C6, as the code has it.  Each admission draws its id from [uuid4].
    With a generator that never repeats a value: over any sequence of
    calls, on any manager, the ids returned by the admissions are pairwise
    distinct; and on a manager constructed without initial nodes, when no
    call admits a dict that is in the registry at that time, the ids along
    the registry are pairwise distinct after every prefix of the
    sequence. *)
Theorem add_node_ids_distinct (uuid4 : nat → string) (drawn : nat)
    (rs : list request) :
  Inj (=) (=) uuid4 →
  (∀ s, NoDup (run_calls (draw_ids uuid4 drawn rs) s).1) ∧
  (∀ h, no_readmission (draw_ids uuid4 drawn rs) (init h []) →
        ∀ rs1 rs2, rs = rs1 ++ rs2 →
          NoDup (registry_ids (run_calls (draw_ids uuid4 drawn rs1) (init h [])).2)).
Proof.
  intros Hinj.
  assert (Hgen : NoDup (generated_ids (draw_ids uuid4 drawn rs))).
  { destruct (draw_ids_generated uuid4 drawn rs) as [n ->].
    apply NoDup_fmap_2; [done|apply NoDup_seq]. }
  split.
  - intros s. by rewrite run_calls_returned.
  - intros h Hre rs1 rs2 ->.
    destruct (draw_ids_app uuid4 drawn rs1 rs2) as [d Happ].
    destruct (run_calls_ids_unique h _ Hgen) as [_ Huniq].
    by apply (Huniq Hre (draw_ids uuid4 drawn rs1) (draw_ids uuid4 d rs2)).
Qed.

Lemma add_node_ids_distinct_witness :
  NoDup (run_calls (draw_ids numbered_uuid 0 readmit_requests) (init empty_heap [])).1 ∧
  NoDup (registry_ids
           (run_calls (draw_ids numbered_uuid 0 readmit_requests)
              (init empty_heap [])).2).
Proof.
  assert (Hinj : Inj (=) (=) numbered_uuid) by (unfold numbered_uuid; apply _).
  assert (Hre : no_readmission (draw_ids numbered_uuid 0 readmit_requests)
                  (init empty_heap [])).
  { cbn. repeat split; apply (bool_decide_unpack _); vm_compute; exact I. }
  destruct (add_node_ids_distinct numbered_uuid 0 readmit_requests Hinj) as [H1 H2].
  split; [apply H1|].
  apply (H2 empty_heap Hre readmit_requests []). by rewrite app_nil_r.
Defined.

(** C6, as stated, fails in three ways.  A dict admitted twice on an empty
    manager, with two different ids drawn: the returned ids differ, and the
    registry holds the same dict, hence the same id, twice.  A manager
    constructed with two initial nodes that carry the same id: the ids
    along the registry are not distinct before any call.  A generator that
    repeats a value: two admissions return the same id. *)
Lemma node_ids_counterexample :
  ((run_calls admit_twice (init empty_heap [])).1 = ["id-1"; "id-2"] ∧
   registry_ids (run_calls admit_twice (init empty_heap [])).2
   = [Some (VStr "id-2"); Some (VStr "id-2")] ∧
   ¬ NoDup (registry_ids (run_calls admit_twice (init empty_heap [])).2)) ∧
  (registry_ids twin_manager = [Some (VStr "n-1"); Some (VStr "n-1")] ∧
   ¬ NoDup (registry_ids twin_manager)) ∧
  ((run_calls (draw_ids repeating_uuid 0 [ReqAddNode node_A 0; ReqAddNode node_B 1])
      (init empty_heap [])).1 = ["same"; "same"] ∧
   ¬ NoDup (run_calls (draw_ids repeating_uuid 0
                         [ReqAddNode node_A 0; ReqAddNode node_B 1])
              (init empty_heap [])).1).
Proof.
  assert (Htwice : ∀ (A : Type) (x : A), ¬ NoDup [x; x]).
  { intros A x Hnd. apply NoDup_cons_1_1 in Hnd. apply Hnd.
    by apply list_elem_of_singleton. }
  repeat split; try reflexivity; apply Htwice.
Qed.

(** ** Locks and threads *)

Lemma method_body_lock_free m : lock_free (method_body m).
Proof.
  intros lk. destruct m; cbn;
    rewrite ?not_elem_of_cons; repeat split; try done; apply not_elem_of_nil.
Qed.

Lemma lock_free_cons ins rest : lock_free (ins :: rest) → lock_free rest.
Proof.
  intros Hfree lk. destruct (Hfree lk) as [Ha Hr].
  apply not_elem_of_cons in Ha as [_ ?]. by apply not_elem_of_cons in Hr as [_ ?].
Qed.

Lemma lock_free_head ins rest :
  lock_free (ins :: rest) → ∀ lk, ins ≠ Acquire lk ∧ ins ≠ Release lk.
Proof.
  intros Hfree lk. destruct (Hfree lk) as [Ha Hr].
  apply not_elem_of_cons in Ha as [? _]. apply not_elem_of_cons in Hr as [? _].
  by split.
Qed.

Lemma thread_inv_owner_ext (o o' : lock → option nat) j m t :
  (∀ lk, o' lk = Some j ↔ o lk = Some j) →
  thread_inv o j m t → thread_inv o' j m t.
Proof.
  intros Hext [[Hp Ho]|[(lk & rest & Hm & Hp & Hfree & Ho)|(Hfree & Ho & Hfin)]].
  - left. split; [done|]. intros lk. rewrite Hext. apply Ho.
  - right; left. exists lk, rest. split; [done|]. split; [done|]. split; [done|].
    intros lk'. rewrite Hext. apply Ho.
  - right; right. split; [done|]. split; [|done]. intros lk. rewrite Hext. apply Ho.
Qed.

(** The ways a thread makes a step. *)
Lemma sched_step_cases i c c' :
  sched_step i c = Some c' →
  ∃ t ins rest, threads c !! i = Some t ∧ prog t = ins :: rest ∧
    ((∃ lk, ins = Acquire lk ∧ owner c lk = None ∧
            c' = {| mgr := mgr c; owner := <[lk := Some i]> (owner c);
                    threads := <[i := set_prog rest t]> (threads c) |}) ∨
     (∃ lk, ins = Release lk ∧
            c' = {| mgr := mgr c; owner := <[lk := None]> (owner c);
                    threads := <[i := set_prog rest t]> (threads c) |}) ∨
     ((∀ lk, ins ≠ Acquire lk ∧ ins ≠ Release lk) ∧
      ((∃ t' s', exec ins t (mgr c) = Ok (t', s') ∧
                 c' = {| mgr := s'; owner := owner c;
                         threads := <[i := set_prog rest t']> (threads c) |}) ∨
       (∃ e, exec ins t (mgr c) = Raise e ∧
             c' = {| mgr := mgr c; owner := release_all i (owner c);
                     threads := <[i := abort e t]> (threads c) |})))).
Proof.
  unfold sched_step. destruct (threads c !! i) as [t|]; [|done].
  destruct (prog t) as [|ins rest] eqn:Hprog; [done|].
  intros Hstep. exists t, ins, rest. split; [done|]. split; [done|].
  destruct ins as [lk|lk| | | | | | | | |].
  1: { left. exists lk. destruct (owner c lk); [done|].
       injection Hstep as <-. by repeat split. }
  1: { right; left. exists lk. by injection Hstep as <-. }
  all: right; right; split; [done|].
  all: match type of Hstep with
       | match ?e with _ => _ end = _ => destruct e as [[t' s']|e'] eqn:Hexec
       end.
  all: injection Hstep as <-; eauto 7.
Qed.

Lemma initial_inv pool s0 : config_inv pool (initial pool s0).
Proof.
  intros i t Ht. cbn in Ht. rewrite list_lookup_fmap in Ht.
  destruct (pool !! i) as [m|]; [|done]. injection Ht as <-.
  exists m. split; [done|]. left. by split.
Qed.

(** One step of thread [i]: the ownership of the others is as before, and
    thread [i] is in one of its three states again. *)
Lemma step_summary pool i c c' :
  config_inv pool c →
  sched_step i c = Some c' →
  ∃ t m t_new,
    threads c !! i = Some t ∧ pool !! i = Some m ∧
    threads c' = <[i := t_new]> (threads c) ∧
    (∀ j, j ≠ i → ∀ lk, owner c' lk = Some j ↔ owner c lk = Some j) ∧
    thread_inv (owner c') i m t_new.
Proof.
  intros Hinv Hstep.
  destruct (sched_step_cases _ _ _ Hstep) as (t & ins & rest & Ht & Hprog & Hcases).
  destruct (Hinv _ _ Ht) as (m & Hm & Hti).
  exists t, m.
  destruct Hcases as [(lk & -> & Hfree & ->)|[(lk & -> & ->)|(Hins & Hexec)]].
  - (* Acquire *)
    exists (set_prog rest t). split; [done|]. split; [done|]. split; [done|]. split.
    + intros j Hj lk'. cbn. destruct (decide (lk = lk')) as [<-|Hne].
      * rewrite fn_lookup_insert, Hfree. split; congruence.
      * by rewrite fn_lookup_insert_ne.
    + cbn. destruct Hti as [[Hp Ho]|[(lk' & r & _ & Hp & Hfr & _)|(Hfr & _ & _)]].
      * rewrite Hprog in Hp. unfold method_prog in Hp.
        destruct (method_lock m) as [lk'|] eqn:Hlock.
        -- injection Hp as <- ->. right; left. exists lk, (method_body m).
           split; [done|]. split; [done|].
           split; [apply method_body_lock_free|]. intros lk'. split.
           ++ intros Hown. destruct (decide (lk = lk')) as [|Hne]; [done|].
              rewrite fn_lookup_insert_ne in Hown by done. by apply Ho in Hown.
           ++ intros ->. by rewrite fn_lookup_insert.
        -- pose proof (method_body_lock_free m) as Hfr. rewrite <- Hp in Hfr.
           by destruct (lock_free_head _ _ Hfr lk).
      * rewrite Hprog in Hp. destruct r as [|x r]; [done|].
        injection Hp as <- _. by destruct (lock_free_head _ _ Hfr lk).
      * rewrite Hprog in Hfr. by destruct (lock_free_head _ _ Hfr lk).
  - (* Release *)
    assert (Hown : owner c lk = Some i ∧ rest = [] ∧
                   ∀ lk', owner c lk' = Some i ↔ lk' = lk).
    { destruct Hti as [[Hp Ho]|[(lk' & r & _ & Hp & Hfr & Ho)|(Hfr & _ & _)]].
      - rewrite Hprog in Hp. unfold method_prog in Hp.
        destruct (method_lock m) as [lk'|]; [done|].
        pose proof (method_body_lock_free m) as Hfr. rewrite <- Hp in Hfr.
        by destruct (lock_free_head _ _ Hfr lk).
      - rewrite Hprog in Hp. destruct r as [|x r].
        + injection Hp as -> ->. split; [by apply Ho|done].
        + injection Hp as <- _. by destruct (lock_free_head _ _ Hfr lk).
      - rewrite Hprog in Hfr. by destruct (lock_free_head _ _ Hfr lk). }
    destruct Hown as (Hown & -> & Honly).
    exists (set_prog [] t). split; [done|]. split; [done|]. split; [done|]. split.
    + intros j Hj lk'. cbn. destruct (decide (lk = lk')) as [<-|Hne].
      * rewrite fn_lookup_insert, Hown. split; congruence.
      * by rewrite fn_lookup_insert_ne.
    + cbn. right; right. split; [|split; [|done]].
      * intros lk'. split; apply not_elem_of_nil.
      * intros lk'. destruct (decide (lk = lk')) as [<-|Hne];
          [by rewrite fn_lookup_insert|rewrite fn_lookup_insert_ne by done].
        intros Hown'. apply Honly in Hown'. congruence.
  - (* a step of the body *)
    assert (Hrest : (∃ lk, method_lock m = Some lk ∧ ∃ r, rest = r ++ [Release lk] ∧
                           lock_free r ∧ ∀ lk', owner c lk' = Some i ↔ lk' = lk) ∨
                    (method_lock m = None ∧ lock_free rest ∧
                     ∀ lk, owner c lk ≠ Some i)).
    { destruct Hti as [[Hp Ho]|[(lk' & r & Hlock & Hp & Hfr & Ho)|(Hfr & Ho & Hfin)]].
      - rewrite Hprog in Hp. unfold method_prog in Hp.
        destruct (method_lock m) as [lk'|] eqn:Hlock.
        + injection Hp as -> _. by destruct (Hins lk').
        + right. split; [done|]. split; [|done].
          pose proof (method_body_lock_free m) as Hfr. rewrite <- Hp in Hfr.
          by apply lock_free_cons in Hfr.
      - rewrite Hprog in Hp. destruct r as [|x r].
        + injection Hp as -> _. by destruct (Hins lk').
        + injection Hp as <- ->. left. exists lk'. split; [done|]. exists r.
          split; [done|]. split; [by apply lock_free_cons in Hfr|done].
      - right. destruct (method_lock m) as [lk'|] eqn:Hlock.
        + rewrite Hprog in Hfin. by specialize (Hfin (mk_is_Some _ _ eq_refl)).
        + split; [done|]. split; [|done]. rewrite Hprog in Hfr.
          by apply lock_free_cons in Hfr. }
    destruct Hexec as [(t' & s' & _ & ->)|(e & _ & ->)].
    + exists (set_prog rest t'). split; [done|]. split; [done|]. split; [done|].
      split; [done|]. cbn.
      destruct Hrest as [(lk & Hlock & r & -> & Hfr & Ho)|(Hlock & Hfr & Ho)].
      * right; left. by exists lk, r.
      * right; right. split; [done|]. split; [done|]. rewrite Hlock.
        by intros [? ?].
    + exists (abort e t). split; [done|]. split; [done|]. split; [done|]. split.
      * intros j Hj lk'. cbn. unfold release_all. case_decide; [|done].
        split; congruence.
      * cbn. right; right. split; [|split; [|done]].
        -- intros lk'. split; apply not_elem_of_nil.
        -- intros lk'. unfold release_all. case_decide; [done|congruence].
Qed.

Lemma step_inv pool c c' : config_inv pool c → step c c' → config_inv pool c'.
Proof.
  intros Hinv [i Hstep].
  destruct (step_summary pool i c c' Hinv Hstep)
    as (t & m & t_new & Ht & Hm & Hthreads & Hothers & Hnew).
  intros j tj Hj. rewrite Hthreads in Hj.
  destruct (decide (i = j)) as [<-|Hne].
  - rewrite list_lookup_insert_eq in Hj by (by eapply lookup_lt_Some).
    injection Hj as <-. by exists m.
  - rewrite list_lookup_insert_ne in Hj by done.
    destruct (Hinv _ _ Hj) as (mj & Hmj & Htj). exists mj. split; [done|].
    eapply thread_inv_owner_ext; [|exact Htj]. intros lk. by apply Hothers.
Qed.

Lemma reachable_inv pool s0 c :
  reachable (initial pool s0) c → config_inv pool c.
Proof.
  intros Hreach. unfold reachable in Hreach.
  assert (Hgen : ∀ c0, rtc step c0 c → config_inv pool c0 → config_inv pool c).
  { clear. intros c0. induction 1 as [|c0 c1 c2 Hstep _ IH]; [done|].
    intros Hinv. apply IH. by eapply step_inv. }
  apply (Hgen _ Hreach), initial_inv.
Qed.

Lemma run_schedule_reachable sched c0 c :
  run_schedule sched c0 = Some c → reachable c0 c.
Proof.
  revert c0. induction sched as [|i sched IH]; intros c0; cbn.
  - intros [= <-]. apply rtc_refl.
  - destruct (sched_step i c0) as [c1|] eqn:Hstep; cbn; [|done].
    intros Hrun. eapply rtc_l; [by exists i|by apply IH].
Qed.

(** The thread program of the selection, run without interference, is
    [select_node_for_operation]. *)
Lemma select_thread_alone now s :
  ∃ t, threads (run_alone 7 (initial [MSelectNode now] s)) = [t] ∧
       prog t = [] ∧
       mgr (run_alone 7 (initial [MSelectNode now] s))
       = (select_node_for_operation now s).2 ∧
       thread_result t = Some <$> (select_node_for_operation now s).1 ∧
       ∀ lk, owner (run_alone 7 (initial [MSelectNode now] s)) lk = None.
Proof.
  unfold select_node_for_operation.
  cbn -[get_healthy_nodes getitem].
  destruct (get_healthy_nodes 1 now s) as [[|x hs]|e];
    cbn -[get_healthy_nodes getitem].
  2: destruct (nodes s) as [|first rest] eqn:Hn;
       cbn -[get_healthy_nodes getitem].
  3: destruct (getitem (heap s x) "id") as [i|e];
       cbn -[get_healthy_nodes getitem].
  all: eexists; split; [reflexivity|]; split; [reflexivity|].
  all: split; [done|]; split; [done|].
  all: intros lk; by destruct lk.
Qed.

(** C8, as the code has it.  Two threads that run methods guarded by the
    same lock ([add_node], [remove_node] and [select_node_for_operation]
    under the nodes lock; sweeps under the health-check lock) are never both
    in the middle of their methods. *)
Theorem same_lock_exclusion (pool : list method) (s0 : clusterManager)
    (c : config) (i j : nat) (mi mj : method) (ti tj : thread) (lk : lock) :
  reachable (initial pool s0) c →
  pool !! i = Some mi → pool !! j = Some mj →
  threads c !! i = Some ti → threads c !! j = Some tj →
  i ≠ j →
  method_lock mi = Some lk → method_lock mj = Some lk →
  ¬ (mid_method mi ti ∧ mid_method mj tj).
Proof.
  intros Hreach Hmi Hmj Hti Htj Hne Hli Hlj [[Hi1 Hi2] [Hj1 Hj2]].
  apply reachable_inv in Hreach.
  assert (Hown : ∀ k mk tk, pool !! k = Some mk → threads c !! k = Some tk →
            method_lock mk = Some lk → prog tk ≠ [] → prog tk ≠ method_prog mk →
            owner c lk = Some k).
  { intros k mk tk Hmk Htk Hlk Hk1 Hk2.
    destruct (Hreach _ _ Htk) as (m & Hm & Hinv).
    rewrite Hmk in Hm. injection Hm as <-.
    destruct Hinv as [[Hp _]|[(lk' & rest & Hlock & _ & _ & Ho)|(_ & _ & Hfin)]].
    - done.
    - rewrite Hlk in Hlock. injection Hlock as <-. by apply Ho.
    - rewrite Hlk in Hfin. by specialize (Hfin (mk_is_Some _ _ eq_refl)). }
  pose proof (Hown i mi ti Hmi Hti Hli Hi1 Hi2) as Hoi.
  pose proof (Hown j mj tj Hmj Htj Hlj Hj1 Hj2) as Hoj.
  congruence.
Qed.

Lemma same_lock_exclusion_witness :
  ∃ c t0 t1,
    run_schedule [0; 0; 0]%nat (initial two_writers registered_AC) = Some c ∧
    threads c = [t0; t1] ∧
    mid_method (MSelectNode 0) t0 ∧
    ¬ (mid_method (MSelectNode 0) t0 ∧ mid_method (MAddNode node_B "id-B" 0) t1).
Proof.
  eexists _, _, _. split; [reflexivity|]. split; [reflexivity|].
  split; [by split|].
  eapply (same_lock_exclusion two_writers registered_AC _ 0 1 _ _ _ _ NodesLock).
  - apply (run_schedule_reachable [0; 0; 0]%nat). reflexivity.
  - reflexivity.
  - reflexivity.
  - reflexivity.
  - reflexivity.
  - lia.
  - reflexivity.
  - reflexivity.
Defined.

(** C8, as stated, fails: with the selection interrupted between its
    [pop(0)] and its [append], a sweep is inside its own block at the same
    time, and a direct read of the healthy nodes returns C alone, which is
    the view neither before the selection (A, C) nor after it (C, A). *)
Lemma interrupted_rotation_counterexample :
  ∃ c t0 t1 t2,
    reachable (initial three_threads registered_AC) c ∧
    threads c = [t0; t1; t2] ∧
    mid_method (MSelectNode 0) t0 ∧
    mid_method (MHealthSweep 0) t1 ∧
    nodes (mgr c) = [node_C] ∧
    healthy_var t2 = Some [node_C] ∧
    get_healthy_nodes 1 0 registered_AC = Ok [node_A; node_C] ∧
    get_healthy_nodes 1 0 (select_node_for_operation 0 registered_AC).2
    = Ok [node_C; node_A].
Proof.
  eexists _, _, _, _.
  split; [apply (run_schedule_reachable interrupted_rotation); reflexivity|].
  split; [reflexivity|]. split; [by split|]. split; [by split|].
  repeat split; reflexivity.
Qed.

(** * Further properties *)

(** ** Removal *)

Lemma remove_comprehension s node_id (ns : list loc) :
  Forall (λ l, is_node (heap s l) = true) ns →
  comprehension
    (λ l, i ← getitem (heap s l) "id"; Ok (bool_decide (i ≠ VStr node_id))) ns
  = Ok (filter (λ l, heap s l !! "id" ≠ Some (VStr node_id)) ns).
Proof.
  intros Hok.
  rewrite (comprehension_filter _
             (λ l, bool_decide (heap s l !! "id" ≠ Some (VStr node_id)))).
  - f_equal. apply list_filter_iff. intros l.
    by rewrite bool_decide_eq_true.
  - induction Hok as [|l ns Hl _ IH]; constructor; [|done].
    destruct (is_node_id _ Hl) as [i Hi]. unfold getitem. rewrite Hi. cbn.
    f_equal. apply bool_decide_ext. split; congruence.
Qed.

Lemma remove_node_ok node_id s :
  registry_ok s →
  remove_node node_id s
  = (Ok (), set_nodes (filter (λ l, heap s l !! "id" ≠ Some (VStr node_id))
                         (nodes s)) s).
Proof.
  intros Hok. unfold remove_node. by rewrite (remove_comprehension _ _ _ Hok).
Qed.

Lemma filter_idem {A} (P : A → Prop) `{∀ x, Decision (P x)} (l : list A) :
  filter P (filter P l) = filter P l.
Proof.
  apply filter_all. induction l as [|x l IH]; [constructor|].
  rewrite filter_cons. case_decide; [by constructor|done].
Qed.

Lemma registry_ok_filter (P : loc → Prop) `{∀ x, Decision (P x)} s :
  registry_ok s → registry_ok (set_nodes (filter P (nodes s)) s).
Proof.
  unfold registry_ok. cbn. induction 1 as [|l ns Hl _ IH]; [constructor|].
  rewrite filter_cons. case_decide; [by constructor|done].
Qed.

(** On a registry of nodes [remove_node] does not raise: it keeps, in
    order, exactly the entries whose id differs from the one given, leaves
    every dict as it is, and the registry is again a registry of nodes. *)
Theorem remove_node_keeps_others (node_id : string) (s : clusterManager) :
  registry_ok s →
  (remove_node node_id s).1 = Ok () ∧
  nodes (remove_node node_id s).2
  = filter (λ l, heap s l !! "id" ≠ Some (VStr node_id)) (nodes s) ∧
  heap (remove_node node_id s).2 = heap s ∧
  (∀ l, l ∈ nodes (remove_node node_id s).2 →
        l ∈ nodes s ∧ heap s l !! "id" ≠ Some (VStr node_id)) ∧
  registry_ok (remove_node node_id s).2.
Proof.
  intros Hok. rewrite (remove_node_ok _ _ Hok). cbn.
  split; [done|]. split; [done|]. split; [done|]. split.
  - intros l Hl. apply list_elem_of_filter in Hl. tauto.
  - by apply registry_ok_filter.
Qed.

Lemma remove_node_keeps_others_witness :
  (remove_node "id-B" swept_ABC).1 = Ok () ∧
  nodes (remove_node "id-B" swept_ABC).2 = [node_A; node_C].
Proof.
  destruct (remove_node_keeps_others "id-B" swept_ABC swept_ABC_ok)
    as (H1 & H2 & _).
  split; [exact H1|]. rewrite H2. reflexivity.
Defined.

(** Removing the same id a second time succeeds and changes nothing. *)
Theorem remove_node_idempotent (node_id : string) (s : clusterManager) :
  registry_ok s →
  remove_node node_id (remove_node node_id s).2
  = (Ok (), (remove_node node_id s).2).
Proof.
  intros Hok. rewrite (remove_node_ok _ _ Hok). cbn.
  rewrite remove_node_ok by by apply registry_ok_filter.
  cbn. unfold set_nodes. cbn. by rewrite filter_idem.
Qed.

Lemma remove_node_idempotent_witness :
  remove_node "id-B" (remove_node "id-B" swept_ABC).2
  = (Ok (), (remove_node "id-B" swept_ABC).2).
Proof. apply (remove_node_idempotent "id-B" swept_ABC swept_ABC_ok). Defined.

Lemma filter_other_length {A B} `{EqDecision B} (f : A → B) (v : B) (l : list A) :
  NoDup (f <$> l) →
  (length l ≤ S (length (filter (λ x, f x ≠ v) l)))%nat ∧
  (v ∉ f <$> l → filter (λ x, f x ≠ v) l = l).
Proof.
  induction l as [|x l IH]; [by split; cbn; [lia|]|].
  rewrite fmap_cons, list.NoDup_cons. intros [Hx Hnd].
  destruct (IH Hnd) as [IH1 IH2]. rewrite filter_cons.
  case_decide as Hv; cbn.
  - split; [lia|]. intros Hnot. f_equal. apply IH2.
    intros Hin. apply Hnot. rewrite elem_of_cons. by right.
  - assert (f x = v) as <- by by destruct (decide (f x = v)).
    rewrite (IH2 Hx). split; [lia|].
    intros Hnot. exfalso. apply Hnot. rewrite elem_of_cons. by left.
Qed.

(** While the ids along the registry are pairwise distinct, [remove_node]
    shortens the registry by at most one entry, and by none when no entry
    carries the id. *)
Theorem remove_node_at_most_one (node_id : string) (s : clusterManager) :
  registry_ok s →
  NoDup (registry_ids s) →
  (length (nodes s) ≤ S (length (nodes (remove_node node_id s).2)))%nat ∧
  (Some (VStr node_id) ∉ registry_ids s →
   nodes (remove_node node_id s).2 = nodes s).
Proof.
  intros Hok Hnd. rewrite (remove_node_ok _ _ Hok). cbn.
  apply (filter_other_length (λ l, heap s l !! "id")). exact Hnd.
Qed.

Lemma remove_node_at_most_one_witness :
  (length (nodes swept_ABC) ≤ S (length (nodes (remove_node "id-B" swept_ABC).2)))%nat ∧
  (Some (VStr "id-B") ∉ registry_ids swept_ABC →
   nodes (remove_node "id-B" swept_ABC).2 = nodes swept_ABC).
Proof.
  apply (remove_node_at_most_one "id-B" swept_ABC swept_ABC_ok).
  apply (bool_decide_unpack _). vm_compute. exact I.
Defined.

Lemma comprehension_raises {A} (p : A → result bool) (e0 : exn) (l : list A) x :
  x ∈ l → p x = Raise e0 → (∀ y e, p y = Raise e → e = e0) →
  comprehension p l = Raise e0.
Proof.
  intros Hx Hpx Honly. induction l as [|y l IH]; [by apply not_elem_of_nil in Hx|].
  cbn. destruct (p y) as [b|e] eqn:Hy; cbn.
  - apply elem_of_cons in Hx as [->|Hx]; [congruence|]. by rewrite (IH Hx).
  - by rewrite (Honly _ _ Hy).
Qed.

(** When some entry of the registry has no [id], [remove_node] raises the
    missing-key error, whatever id is given, and the registry stays as it
    was. *)
Theorem remove_node_missing_id (node_id : string) (s : clusterManager) (l : loc) :
  l ∈ nodes s →
  heap s l !! "id" = None →
  remove_node node_id s = (Raise (KeyError "id"), s).
Proof.
  intros Hl Hid. unfold remove_node.
  rewrite (comprehension_raises _ (KeyError "id") _ l); [done|done| |].
  - unfold getitem. by rewrite Hid.
  - intros y e. unfold getitem. destruct (heap s y !! "id"); cbn; congruence.
Qed.

Lemma remove_node_missing_id_witness :
  remove_node "id-C"
    (run_calls [AddNode node_C "id-C" 0] (init empty_heap [node_A])).2
  = (Raise (KeyError "id"),
     (run_calls [AddNode node_C "id-C" 0] (init empty_heap [node_A])).2).
Proof.
  apply (remove_node_missing_id "id-C" _ node_A).
  - apply (bool_decide_unpack _). vm_compute. exact I.
  - reflexivity.
Defined.

(** ** Admission *)

Lemma add_node_registry_ok l uid now s :
  registry_ok s → registry_ok (add_node l uid now s).2.
Proof.
  intros Hok. unfold registry_ok.
  change (nodes (add_node l uid now s).2) with (nodes s ++ [l]).
  apply Forall_app. split.
  - unfold registry_ok in Hok. induction Hok as [|l' ns Hl' _ IH]; constructor; [|done].
    destruct (decide (l = l')) as [<-|Hne]; [apply add_node_is_node|].
    cbn. by rewrite heap_insert_ne.
  - constructor; [apply add_node_is_node|constructor].
Qed.

Lemma add_node_fresh_active l uid now now' s :
  now' - now < node_timeout s →
  fresh_active (node_timeout s) now' (heap (add_node l uid now s).2 l) = true.
Proof.
  intros Hage. cbn. rewrite heap_insert_eq. unfold fresh_active.
  rewrite lookup_insert_eq.
  rewrite lookup_insert_ne, lookup_insert_eq by done.
  rewrite bool_decide_eq_true_2 by done. by rewrite bool_decide_eq_true_2.
Qed.

(** A node is healthy as soon as it is admitted, and for as long as less
    than the timeout has passed since: [get_healthy_nodes] succeeds and
    returns it.  This also holds for a dict that was in the registry
    before, demoted or not. *)
Theorem add_node_healthy (l : loc) (uid : string) (now now' : Z)
    (s : clusterManager) :
  registry_ok s →
  now' - now < node_timeout s →
  ∃ r, get_healthy_nodes 1 now' (add_node l uid now s).2 = Ok r ∧ l ∈ r.
Proof.
  intros Hok Hage.
  pose proof (add_node_registry_ok l uid now s Hok) as Hok'.
  assert (Hin : l ∈ healthy_view now' (add_node l uid now s).2).
  { unfold healthy_view. apply list_elem_of_filter. split.
    - exact (add_node_fresh_active l uid now now' s Hage).
    - change (nodes (add_node l uid now s).2) with (nodes s ++ [l]).
      apply elem_of_app. right. by apply list_elem_of_singleton. }
  exists (healthy_view now' (add_node l uid now s).2). split; [|done].
  rewrite (get_healthy_nodes_ok _ _ _ Hok').
  rewrite decide_False; [done|].
  destruct (healthy_view now' _); [by apply not_elem_of_nil in Hin|cbn; lia].
Qed.

Lemma add_node_healthy_witness :
  ∃ r, get_healthy_nodes 1 60 (add_node node_B "id-B2" 40 swept_ABC).2 = Ok r ∧
       node_B ∈ r.
Proof.
  apply (add_node_healthy node_B "id-B2" 40 60 swept_ABC swept_ABC_ok).
  reflexivity.
Defined.

(** Admitting a dict that is not in the registry, under an id that no
    entry carries, and removing that id again gives back the registry
    sequence as it was. *)
Theorem add_then_remove (l : loc) (uid : string) (now : Z) (s : clusterManager) :
  registry_ok s →
  l ∉ nodes s →
  Some (VStr uid) ∉ registry_ids s →
  (remove_node uid (add_node l uid now s).2).1 = Ok () ∧
  nodes (remove_node uid (add_node l uid now s).2).2 = nodes s.
Proof.
  intros Hok Hl Huid.
  rewrite (remove_node_ok _ _ (add_node_registry_ok l uid now s Hok)).
  split; [done|]. cbn [snd nodes set_nodes].
  change (nodes (add_node l uid now s).2) with (nodes s ++ [l]).
  rewrite list.filter_app, filter_cons_False, filter_nil, app_nil_r.
  - apply filter_all. apply Forall_forall. intros l' Hl'.
    apply list_elem_of_In in Hl'.
    assert (l ≠ l') by by intros ->.
    cbn. rewrite heap_insert_ne by done. intros Hid. apply Huid.
    unfold registry_ids. change (map ?f ?x) with (f <$> x).
    apply list_elem_of_fmap. by exists l'.
  - intros Hne. apply Hne. cbn. rewrite heap_insert_eq.
    do 2 rewrite lookup_insert_ne by done. by rewrite lookup_insert_eq.
Qed.

Lemma add_then_remove_witness :
  (remove_node "id-D" (add_node 3%nat "id-D" 40 swept_ABC).2).1 = Ok () ∧
  nodes (remove_node "id-D" (add_node 3%nat "id-D" 40 swept_ABC).2).2
  = nodes swept_ABC.
Proof.
  apply (add_then_remove 3%nat "id-D" 40 swept_ABC swept_ABC_ok).
  - apply (bool_decide_unpack _). vm_compute. exact I.
  - apply (bool_decide_unpack _). vm_compute. exact I.
Defined.

(** ** Selection *)

Lemma select_node_nodes_perm now s :
  nodes (select_node_for_operation now s).2 ≡ₚ nodes s ∧
  heap (select_node_for_operation now s).2 = heap s ∧
  node_timeout (select_node_for_operation now s).2 = node_timeout s.
Proof.
  unfold select_node_for_operation.
  destruct (get_healthy_nodes 1 now s) as [[|x hs]|e]; cbn; try done.
  destruct (nodes s) as [|first rest] eqn:Hn; cbn; rewrite ?Hn; [done|].
  split; [|done]. by rewrite Permutation_app_comm.
Qed.

(** A selection only rearranges the registry: the sequence afterwards is a
    permutation of the one before, whether the call returns or raises, and
    no dict is written. *)
Theorem select_node_permutes (now : Z) (s : clusterManager) :
  nodes (select_node_for_operation now s).2 ≡ₚ nodes s ∧
  heap (select_node_for_operation now s).2 = heap s.
Proof. by destruct (select_node_nodes_perm now s) as (? & ? & _). Qed.

Lemma select_node_registry_ok now s :
  registry_ok s → registry_ok (select_node_for_operation now s).2.
Proof.
  intros Hok. destruct (select_node_nodes_perm now s) as (Hperm & Hheap & _).
  unfold registry_ok in *. rewrite Hperm, Hheap. done.
Qed.

Lemma is_node_flip (d : dict) :
  is_node d = true → is_node (<["status" := VStr "inactive"]> d) = true.
Proof.
  unfold is_node. do 2 rewrite lookup_insert_ne by done. rewrite lookup_insert_eq.
  destruct (d !! "id") as [[| |]|]; try done.
  by destruct (d !! "last_heartbeat") as [[| |]|].
Qed.

Lemma sweep_loop_is_node timeout now ls (h : loc → dict) l :
  is_node (h l) = true → is_node ((sweep_loop timeout now h ls).1 l) = true.
Proof.
  intros Hl.
  pose proof (sweep_loop_frame timeout now ls h l "id") as Hid.
  pose proof (sweep_loop_frame timeout now ls h l "last_heartbeat") as Hhb.
  unfold is_node in *. rewrite Hid, Hhb by done.
  destruct (h l !! "id") as [[| |]|]; try done.
  destruct (h l !! "last_heartbeat") as [[| |]|]; try done.
  destruct (sweep_loop_status timeout now ls h l) as [->|[-> _]]; [done|].
  apply bool_decide_eq_true_2. by right.
Qed.

Lemma health_sweep_registry_ok now s :
  registry_ok s → registry_ok (health_sweep now s).1.
Proof.
  intros Hok. unfold registry_ok in *.
  rewrite health_sweep_nodes, health_sweep_heap.
  eapply list.Forall_impl; [exact Hok|].
  intros l Hl. by apply sweep_loop_is_node.
Qed.

Lemma run_calls_preserve_ok cs s :
  registry_ok s → registry_ok (run_calls cs s).2.
Proof.
  revert s. induction cs as [|c cs IH]; intros s Hok; [done|].
  rewrite run_calls_cons. apply IH.
  destruct c as [l uid now|i|now|now]; cbn.
  - by apply add_node_registry_ok.
  - rewrite (remove_node_ok _ _ Hok). by apply registry_ok_filter.
  - by apply select_node_registry_ok.
  - by apply health_sweep_registry_ok.
Qed.

(** Whatever calls are made on a manager that started empty, every entry
    of the registry is a node with its three fields, so that
    [get_healthy_nodes] either returns the healthy nodes or raises the
    insufficient-capacity exception: it never stops at a missing key or at
    a value of the wrong type. *)
Theorem run_calls_registry_ok (h : loc → dict) (cs : list call) :
  registry_ok (run_calls cs (init h [])).2 ∧
  ∀ m now,
    get_healthy_nodes m now (run_calls cs (init h [])).2
    = Ok (healthy_view now (run_calls cs (init h [])).2) ∨
    get_healthy_nodes m now (run_calls cs (init h [])).2
    = Raise (InsufficientCapacity m).
Proof.
  assert (Hok : registry_ok (run_calls cs (init h [])).2).
  { apply run_calls_preserve_ok. constructor. }
  split; [done|]. intros m now. rewrite (get_healthy_nodes_ok _ _ _ Hok).
  case_decide; [by right|by left].
Qed.

(** When no node of a registry of nodes is healthy (in particular when
    the registry is empty), the selection raises the insufficient-capacity
    exception and does not rotate the registry. *)
Theorem select_node_no_healthy (now : Z) (s : clusterManager) :
  registry_ok s →
  healthy_view now s = [] →
  select_node_for_operation now s = (Raise (InsufficientCapacity 1), s).
Proof.
  intros Hok Hview. unfold select_node_for_operation.
  rewrite (get_healthy_nodes_ok _ _ _ Hok), Hview. cbn.
  by rewrite decide_True by lia.
Qed.

Lemma select_node_no_healthy_witness :
  select_node_for_operation 31 registered_ABC
  = (Raise (InsufficientCapacity 1), registered_ABC).
Proof.
  apply (select_node_no_healthy 31 registered_ABC); [repeat constructor|reflexivity].
Defined.

(** While every node of the registry is healthy, as many selections as
    there are nodes return the nodes in registry order, each once, and
    bring the registry back to the order it had. *)
Theorem select_round_robin (now : Z) (s : clusterManager) :
  registry_ok s →
  Forall (λ l, fresh_active (node_timeout s) now (heap s l) = true) (nodes s) →
  (select_n (length (nodes s)) now s).1 = Ok <$> nodes s ∧
  nodes (select_n (length (nodes s)) now s).2 = nodes s.
Proof.
  intros Hok Hall.
  apply (select_n_all_healthy now (nodes s) [] s Hok Hall). by rewrite app_nil_r.
Qed.

Lemma select_round_robin_witness :
  (select_n 3 10 registered_ABC).1 = [Ok node_A; Ok node_B; Ok node_C] ∧
  nodes (select_n 3 10 registered_ABC).2 = [node_A; node_B; node_C].
Proof.
  apply (select_round_robin 10 registered_ABC); repeat constructor.
Defined.

Lemma comprehension_first {A} (p : A → result bool) (l : list A) x hs :
  comprehension p l = Ok (x :: hs) →
  ∃ pre post, l = pre ++ x :: post ∧ p x = Ok true ∧
              Forall (λ y, p y = Ok false) pre.
Proof.
  induction l as [|y l IH]; cbn; [done|].
  destruct (p y) as [b|e] eqn:Hy; cbn; [|done].
  destruct (comprehension p l) as [kept|e]; cbn; [|done].
  destruct b.
  - intros [= -> ->]. exists [], l. by repeat split.
  - intros [= ->]. destruct (IH eq_refl) as (pre & post & -> & Hx & Hpre).
    exists (y :: pre), post. repeat split; [done|by constructor].
Qed.

Lemma get_healthy_nodes_inv m now s r :
  get_healthy_nodes m now s = Ok r →
  comprehension (λ l, node_is_healthy (node_timeout s) now (heap s l)) (nodes s)
  = Ok r ∧ ¬ Z.of_nat (length r) < m.
Proof.
  unfold get_healthy_nodes.
  destruct (comprehension _ _) as [hs|e]; cbn; [|done].
  case_decide; [done|]. by intros [= <-].
Qed.

(** A node that the selection returns is registered, active and fresh,
    and it is the first such node in registry order: every entry before it
    is not healthy.  The node rotated to the back is the first entry of the
    registry.  This holds for any registry. *)
Theorem select_node_first_healthy (now : Z) (s : clusterManager) (x : loc) :
  (select_node_for_operation now s).1 = Ok x →
  (∃ pre post,
     nodes s = pre ++ x :: post ∧
     fresh_active (node_timeout s) now (heap s x) = true ∧
     ∀ l, l ∈ pre → fresh_active (node_timeout s) now (heap s l) = false) ∧
  (∃ first rest,
     nodes s = first :: rest ∧
     nodes (select_node_for_operation now s).2 = rest ++ [first]).
Proof.
  unfold select_node_for_operation.
  destruct (get_healthy_nodes 1 now s) as [[|x' hs]|e] eqn:Hget; cbn; try done.
  destruct (nodes s) as [|first rest] eqn:Hn; cbn; [done|].
  destruct (getitem (heap s x') "id"); cbn; [|done]. intros [= <-].
  split; [|by exists first, rest].
  apply get_healthy_nodes_inv in Hget as [Hc _]. rewrite Hn in Hc.
  destruct (comprehension_first _ _ _ _ Hc) as (pre & post & Heq & Hx & Hpre).
  exists pre, post. split; [done|].
  split; [symmetry; by apply node_is_healthy_fresh_active|].
  intros l Hl. rewrite list.Forall_forall in Hpre.
  symmetry. by apply node_is_healthy_fresh_active, Hpre.
Qed.

Lemma select_node_first_healthy_witness :
  (∃ pre post,
     nodes swept_BAC = pre ++ node_A :: post ∧
     fresh_active (node_timeout swept_BAC) 40 (heap swept_BAC node_A) = true ∧
     ∀ l, l ∈ pre → fresh_active (node_timeout swept_BAC) 40 (heap swept_BAC l) = false) ∧
  (∃ first rest,
     nodes swept_BAC = first :: rest ∧
     nodes (select_node_for_operation 40 swept_BAC).2 = rest ++ [first]).
Proof.
  apply (select_node_first_healthy 40 swept_BAC node_A). reflexivity.
Defined.

(** ** Healthy nodes *)

Lemma filter_sublist_impl {A} (P Q : A → Prop)
    `{∀ x, Decision (P x)} `{∀ x, Decision (Q x)} (l : list A) :
  (∀ x, P x → Q x) → sublist (filter P l) (filter Q l).
Proof.
  intros Himpl. induction l as [|x l IH]; [constructor|].
  rewrite !filter_cons. repeat case_decide.
  - by apply sublist_skip.
  - exfalso. auto.
  - by apply sublist_cons.
  - done.
Qed.

(** What [get_healthy_nodes] returns, on any registry: registered nodes,
    in registry order, each active and fresh, at least [min_nodes] of them;
    and [min_nodes] only gates the call, a smaller minimum gives the same
    list. *)
Theorem get_healthy_nodes_sound (m now : Z) (s : clusterManager) (r : list loc) :
  get_healthy_nodes m now s = Ok r →
  sublist r (nodes s) ∧
  (∀ l, l ∈ r → fresh_active (node_timeout s) now (heap s l) = true) ∧
  m ≤ Z.of_nat (length r) ∧
  ∀ m', m' ≤ m → get_healthy_nodes m' now s = Ok r.
Proof.
  intros Hget. pose proof Hget as [Hc Hlen]%get_healthy_nodes_inv.
  split; [by apply comprehension_sublist in Hc|]. split; [|split; [lia|]].
  - intros l Hl. symmetry. apply node_is_healthy_fresh_active.
    by apply (comprehension_elem _ _ _ _ Hc).
  - intros m' Hm'. unfold get_healthy_nodes. rewrite Hc. cbn.
    by rewrite decide_False by lia.
Qed.

Lemma get_healthy_nodes_sound_witness :
  sublist [node_A; node_C] (nodes swept_ABC) ∧
  (∀ l, l ∈ [node_A; node_C] →
        fresh_active (node_timeout swept_ABC) 40 (heap swept_ABC l) = true) ∧
  2 ≤ Z.of_nat (length [node_A; node_C]) ∧
  ∀ m', m' ≤ 2 → get_healthy_nodes m' 40 swept_ABC = Ok [node_A; node_C].
Proof.
  apply (get_healthy_nodes_sound 2 40 swept_ABC). reflexivity.
Defined.

(** Without a heartbeat refresh, waiting never makes a node healthy: the
    nodes healthy at a later time are among those healthy earlier, so a
    call that succeeds later would have succeeded earlier. *)
Theorem get_healthy_nodes_earlier (m now now' : Z) (s : clusterManager)
    (r' : list loc) :
  registry_ok s →
  now ≤ now' →
  get_healthy_nodes m now' s = Ok r' →
  ∃ r, get_healthy_nodes m now s = Ok r ∧ sublist r' r.
Proof.
  intros Hok Hle. rewrite !(get_healthy_nodes_ok _ _ _ Hok).
  assert (Hsub : sublist (healthy_view now' s) (healthy_view now s)).
  { apply filter_sublist_impl. intros l. unfold fresh_active.
    destruct (heap s l !! "status") as [st|]; [|done].
    destruct (heap s l !! "last_heartbeat") as [[|t|]|]; try done.
    rewrite !andb_true_iff, !bool_decide_eq_true. intros [-> ?]. split; [done|lia]. }
  case_decide as Hm; [done|]. intros [= <-].
  exists (healthy_view now s). split; [|done].
  apply sublist_length in Hsub. by rewrite decide_False by lia.
Qed.

Lemma get_healthy_nodes_earlier_witness :
  ∃ r, get_healthy_nodes 2 10 swept_ABC = Ok r ∧ sublist [node_A; node_C] r.
Proof.
  apply (get_healthy_nodes_earlier 2 10 40 swept_ABC [node_A; node_C]).
  - exact swept_ABC_ok.
  - lia.
  - reflexivity.
Defined.

(** ** Sweeps *)

Lemma stale_flip timeout now (d : dict) v :
  stale timeout now (<["status" := v]> d) = stale timeout now d.
Proof. unfold stale. by rewrite lookup_insert_ne. Qed.

(** On nodes, the loop of the sweep ends without an exception, and the
    status it leaves is inactive for the swept nodes with a stale heartbeat
    and the old one otherwise. *)
Lemma sweep_loop_ok timeout now ls (h : loc → dict) :
  Forall (λ l, is_node (h l) = true) ls →
  (sweep_loop timeout now h ls).2 = None ∧
  ∀ l, (sweep_loop timeout now h ls).1 l !! "status"
       = if decide (l ∈ ls ∧ stale timeout now (h l) = true)
         then Some (VStr "inactive") else h l !! "status".
Proof.
  revert h. induction ls as [|l0 ls IH]; intros h Hok.
  - split; [done|]. intros l. rewrite decide_False; [done|].
    intros [Hl _]. by apply not_elem_of_nil in Hl.
  - inversion Hok as [|? ? Hl0 Hls]; subst.
    assert (∃ i t, h l0 !! "id" = Some (VStr i) ∧
                   h l0 !! "last_heartbeat" = Some (VNum t)) as (i & t & Hid & Hhb).
    { unfold is_node in Hl0. destruct (h l0 !! "id") as [[| |]|]; try done.
      destruct (h l0 !! "last_heartbeat") as [[| |]|]; try done. eauto. }
    assert (Hst0 : stale timeout now (h l0) = bool_decide (now - t > timeout)).
    { unfold stale. by rewrite Hhb. }
    cbn [sweep_loop]. unfold getitem. rewrite Hhb. cbn.
    case_decide as Hage.
    + set (h' := <[l0 := <["status" := VStr "inactive"]> (h l0)]> h).
      assert (Hid' : h' l0 !! "id" = Some (VStr i)).
      { subst h'. by rewrite heap_insert_eq, lookup_insert_ne. }
      rewrite Hid'.
      assert (Hok' : Forall (λ l, is_node (h' l) = true) ls).
      { eapply list.Forall_impl; [exact Hls|]. intros l Hl. subst h'. cbn.
        destruct (decide (l0 = l)) as [<-|Hne].
        - rewrite heap_insert_eq. by apply is_node_flip.
        - by rewrite heap_insert_ne. }
      destruct (IH h' Hok') as [Hnone Hstatus]. split; [done|].
      intros l. rewrite Hstatus. subst h'.
      destruct (decide (l0 = l)) as [<-|Hne].
      * rewrite heap_insert_eq, stale_flip, lookup_insert_eq, Hst0.
        rewrite (bool_decide_eq_true_2 _ Hage).
        rewrite (decide_True (P := l0 ∈ l0 :: ls ∧ true = true))
          by (split; [rewrite elem_of_cons; by left|done]).
        by case_decide.
      * rewrite heap_insert_ne by done.
        apply decide_ext. rewrite elem_of_cons. intuition congruence.
    + destruct (IH h Hls) as [Hnone Hstatus]. split; [done|].
      intros l. rewrite Hstatus. apply decide_ext. rewrite elem_of_cons.
      split; [tauto|]. intros [[->|Hl] Hst]; [|done].
      rewrite Hst0 in Hst. by apply bool_decide_eq_true in Hst.
Qed.

(** On a registry of nodes a sweep runs to its end without an exception,
    and afterwards the status is inactive for exactly the registered nodes
    whose heartbeat age exceeds the timeout; every other status is as it
    was. *)
Theorem health_sweep_complete (now : Z) (s : clusterManager) :
  registry_ok s →
  (health_sweep now s).2 = None ∧
  ∀ l, heap (health_sweep now s).1 l !! "status"
       = if decide (l ∈ nodes s ∧ stale (node_timeout s) now (heap s l) = true)
         then Some (VStr "inactive") else heap s l !! "status".
Proof.
  intros Hok. rewrite health_sweep_heap.
  destruct (sweep_loop_ok (node_timeout s) now (nodes s) (heap s) Hok) as [Hnone Hst].
  split; [|done]. unfold health_sweep.
  by destruct (sweep_loop _ _ _ _).
Qed.

Lemma health_sweep_complete_witness :
  (health_sweep 40 registered_ABC).2 = None ∧
  ∀ l, heap (health_sweep 40 registered_ABC).1 l !! "status"
       = if decide (l ∈ nodes registered_ABC ∧
                    stale (node_timeout registered_ABC) 40 (heap registered_ABC l) = true)
         then Some (VStr "inactive") else heap registered_ABC l !! "status".
Proof.
  apply (health_sweep_complete 40 registered_ABC). repeat constructor.
Defined.

(** A second sweep at the same time changes nothing: every dict is as the
    first sweep left it. *)
Theorem health_sweep_idempotent (now : Z) (s : clusterManager) :
  registry_ok s →
  ∀ l, heap (health_sweep now (health_sweep now s).1).1 l
       = heap (health_sweep now s).1 l.
Proof.
  intros Hok l. apply map_eq. intros k.
  pose proof (health_sweep_registry_ok now s Hok) as Hok1.
  destruct (decide (k = "status")) as [->|Hk].
  - rewrite (health_sweep_heap now (health_sweep now s).1).
    destruct (sweep_loop_ok (node_timeout (health_sweep now s).1) now _ _ Hok1)
      as [_ ->].
    rewrite health_sweep_nodes, health_sweep_timeout.
    case_decide as Hst; [|done].
    destruct Hst as [Hl Hst]. rewrite health_sweep_heap.
    destruct (sweep_loop_ok (node_timeout s) now _ _ Hok) as [_ ->].
    rewrite decide_True; [done|]. split; [done|].
    unfold stale in *. rewrite health_sweep_heap in Hst.
    by rewrite sweep_loop_frame in Hst.
  - rewrite (health_sweep_heap now (health_sweep now s).1).
    by rewrite sweep_loop_frame.
Qed.

Lemma health_sweep_idempotent_witness :
  heap (health_sweep 40 (health_sweep 40 registered_ABC).1).1 node_B
  = heap (health_sweep 40 registered_ABC).1 node_B.
Proof.
  apply (health_sweep_idempotent 40 registered_ABC). repeat constructor.
Defined.

Lemma sweep_fresh_active timeout now now' ls (h : loc → dict) l :
  now ≤ now' →
  fresh_active timeout now' ((sweep_loop timeout now h ls).1 l)
  = fresh_active timeout now' (h l).
Proof.
  intros Hle. unfold fresh_active.
  rewrite (sweep_loop_frame timeout now ls h l "last_heartbeat") by done.
  destruct (sweep_loop_status timeout now ls h l)
    as [->|(-> & _ & t & Ht & Hage)]; [done|].
  rewrite Ht. rewrite (bool_decide_eq_false_2 (now' - t < timeout)) by lia.
  rewrite andb_false_r. destruct (h l !! "status"); [|done].
  by rewrite andb_false_r.
Qed.

(** A sweep does not change what [get_healthy_nodes] answers from then on:
    the nodes it demotes were already not fresh.  At any time not before
    the sweep, the call gives the same result, or the same exception, on
    the swept registry as on the unswept one. *)
Theorem health_sweep_keeps_healthy (m now now' : Z) (s : clusterManager) :
  registry_ok s →
  now ≤ now' →
  get_healthy_nodes m now' (health_sweep now s).1 = get_healthy_nodes m now' s.
Proof.
  intros Hok Hle.
  rewrite (get_healthy_nodes_ok _ _ _ Hok).
  rewrite (get_healthy_nodes_ok _ _ _ (health_sweep_registry_ok now s Hok)).
  assert (Hview : healthy_view now' (health_sweep now s).1 = healthy_view now' s).
  { unfold healthy_view.
    rewrite health_sweep_nodes, health_sweep_timeout, health_sweep_heap.
    apply list_filter_iff. intros l. by rewrite sweep_fresh_active. }
  by rewrite Hview.
Qed.

Lemma health_sweep_keeps_healthy_witness :
  get_healthy_nodes 1 45 (health_sweep 40 registered_ABC).1
  = get_healthy_nodes 1 45 registered_ABC.
Proof.
  apply (health_sweep_keeps_healthy 1 40 45 registered_ABC); [repeat constructor|lia].
Defined.

(** ** Dispatch *)

Lemma collect_expected operation data s (fs : list (loc * op_result)) :
  Forall (λ f, is_node (heap s f.1) = true ∧ f.2 = operation (heap s f.1) data) fs →
  collect s fs = Ok (expected_outcome operation data s <$> fs.*1).
Proof.
  induction 1 as [|[l r] fs [Hl Hr] _ IH]; [done|].
  cbn in Hl, Hr. destruct (is_node_id _ Hl) as [i Hi].
  cbn [collect]. unfold getitem. rewrite Hi. cbn [mbind result_bind]. rewrite IH.
  cbn. unfold expected_outcome at 2. by rewrite Hi, <- Hr.
Qed.

Lemma healthy_view_nodes now s l : l ∈ healthy_view now s → l ∈ nodes s.
Proof. unfold healthy_view. intros Hl. by apply list_elem_of_filter in Hl as [_ ?]. Qed.

Lemma slice_to_elem {A} (n : Z) (l : list A) x : x ∈ slice_to n l → x ∈ l.
Proof.
  unfold slice_to. case_decide; intros (i & Hx & _)%elem_of_take;
    by apply list_elem_of_lookup_2 in Hx.
Qed.

(** What a successful dispatch returns: up to the order in which the
    invocations finish, one outcome per selected node, carrying the id of
    that node and the value or the error message of its invocation; never
    more outcomes than [max_concurrent_nodes]; and the outcomes in
    submission order when the invocations finish in that order. *)
Theorem perform_distributed_operation_outcomes
    (s : clusterManager) (operation : dict → value → op_result) (data : value)
    (max_concurrent_nodes now : Z) (completion : list nat) (outs : list outcome) :
  registry_ok s →
  completion ≡ₚ seq 0 (length (slice_to max_concurrent_nodes (healthy_view now s))) →
  perform_distributed_operation operation data max_concurrent_nodes now completion s
  = Ok outs →
  outs ≡ₚ expected_outcome operation data s
            <$> slice_to max_concurrent_nodes (healthy_view now s) ∧
  Z.of_nat (length outs) ≤ max_concurrent_nodes ∧
  (completion = seq 0 (length (slice_to max_concurrent_nodes (healthy_view now s))) →
   outs = expected_outcome operation data s
            <$> slice_to max_concurrent_nodes (healthy_view now s)).
Proof.
  intros Hok Hperm. unfold perform_distributed_operation.
  rewrite (get_healthy_nodes_ok _ _ _ Hok).
  destruct (decide (Z.of_nat (length (healthy_view now s)) < 1)); cbn; [done|].
  destruct (decide (max_concurrent_nodes ≤ 0)) as [Hmax|Hmax]; [done|].
  set (selected := slice_to max_concurrent_nodes (healthy_view now s)) in *.
  set (fs := as_completed completion (submit operation data s selected)).
  assert (Hfs : fs ≡ₚ submit operation data s selected).
  { apply as_completed_Permutation. unfold submit. by rewrite length_map. }
  assert (Hall : Forall (λ f : loc * op_result,
                   is_node (heap s f.1) = true ∧ f.2 = operation (heap s f.1) data) fs).
  { rewrite Hfs. unfold submit. apply list.Forall_forall. intros f Hf.
    change (map ?g ?x) with (g <$> x) in Hf.
    apply list_elem_of_fmap in Hf as (l & -> & Hl). split; [|done]. cbn.
    unfold registry_ok in Hok. rewrite list.Forall_forall in Hok. apply Hok.
    by apply healthy_view_nodes with now, slice_to_elem with max_concurrent_nodes. }
  rewrite (collect_expected operation data s fs Hall). intros [= <-].
  assert (Hfst : (submit operation data s selected).*1 = selected).
  { unfold submit. change (map ?g ?x) with (g <$> x).
    rewrite <- list_fmap_compose. apply list_fmap_id. }
  split; [by rewrite Hfs, Hfst|]. split.
  - rewrite length_fmap, length_fmap, Hfs, <- (length_fmap fst), Hfst.
    subst selected. unfold slice_to. rewrite decide_False by lia.
    rewrite length_take. lia.
  - intros ->. subst fs. unfold as_completed.
    assert (Hlen : length (submit operation data s selected) = length selected)
      by (unfold submit; apply length_map).
    pose proof (as_completed_seq [] (submit operation data s selected)) as Hseq.
    rewrite Hlen in Hseq. change (length (@nil (loc * op_result))) with 0%nat in Hseq.
    change ([] ++ ?x) with x in Hseq. by rewrite Hseq, Hfst.
Qed.

Lemma perform_distributed_operation_outcomes_witness :
  [Success (VStr "id-C") VNone; Failed (VStr "id-A") "boom"]
  ≡ₚ expected_outcome fails_on_A VNone swept_ABC
       <$> slice_to 3 (healthy_view 40 swept_ABC) ∧
  Z.of_nat (length [Success (VStr "id-C") VNone; Failed (VStr "id-A") "boom"]) ≤ 3.
Proof.
  destruct (perform_distributed_operation_outcomes swept_ABC fails_on_A VNone
              3 40 [1; 0]%nat
              [Success (VStr "id-C") VNone; Failed (VStr "id-A") "boom"])
    as (H1 & H2 & _).
  - exact swept_ABC_ok.
  - exact (perm_swap 0%nat 1%nat []).
  - reflexivity.
  - split; [exact H1|exact H2].
Defined.

(** The two ways a dispatch fails on a registry of nodes, in the order the
    code checks them: without a healthy node it raises the
    insufficient-capacity exception whatever the other arguments; with a
    healthy node and [max_concurrent_nodes <= 0] it raises the thread
    pool's [ValueError]. *)
Theorem perform_distributed_operation_errors
    (s : clusterManager) (operation : dict → value → op_result) (data : value)
    (max_concurrent_nodes now : Z) (completion : list nat) :
  registry_ok s →
  (healthy_view now s = [] →
   perform_distributed_operation operation data max_concurrent_nodes now completion s
   = Raise (InsufficientCapacity 1)) ∧
  (healthy_view now s ≠ [] → max_concurrent_nodes ≤ 0 →
   perform_distributed_operation operation data max_concurrent_nodes now completion s
   = Raise ValueError).
Proof.
  intros Hok. unfold perform_distributed_operation.
  rewrite (get_healthy_nodes_ok _ _ _ Hok). split.
  - intros ->. by rewrite decide_True by (cbn; lia).
  - intros Hne Hmax.
    rewrite decide_False by (destruct (healthy_view now s); [done|cbn; lia]).
    cbn. by rewrite decide_True.
Qed.

Lemma perform_distributed_operation_errors_witness :
  (healthy_view 31 registered_ABC = [] →
   perform_distributed_operation probe VNone (-1) 31 [] registered_ABC
   = Raise (InsufficientCapacity 1)) ∧
  (healthy_view 31 registered_ABC ≠ [] → -1 ≤ 0 →
   perform_distributed_operation probe VNone (-1) 31 [] registered_ABC
   = Raise ValueError).
Proof.
  apply (perform_distributed_operation_errors registered_ABC probe VNone (-1) 31 []).
  repeat constructor.
Defined.

(** ** Progress of the threads *)

Lemma thread_inv_holds (o : lock → option nat) i m t lk :
  thread_inv o i m t → o lk = Some i →
  ∃ rest, prog t = rest ++ [Release lk] ∧ lock_free rest ∧
          ∀ lk', o lk' = Some i → lk' = lk.
Proof.
  intros [[_ Ho]|[(lk0 & rest & _ & Hp & Hfree & Ho)|(_ & Ho & _)]] Hown.
  - by destruct (Ho lk).
  - assert (lk = lk0) as -> by by apply Ho.
    exists rest. split; [done|]. split; [done|]. intros lk'. apply Ho.
  - by destruct (Ho lk).
Qed.

Lemma step_owner_inv pool i c c' :
  config_inv pool c → owner_inv c → sched_step i c = Some c' → owner_inv c'.
Proof.
  intros Hinv Hown Hstep.
  destruct (step_summary pool i c c' Hinv Hstep)
    as (t & m & t_new & Ht & Hm & Hthreads & Hothers & Hnew).
  intros lk j Hj. rewrite Hthreads. destruct (decide (i = j)) as [<-|Hne].
  - destruct (thread_inv_holds _ _ _ _ _ Hnew Hj) as (rest & Hp & _).
    exists t_new, rest. split; [|done].
    apply list_lookup_insert_eq. by eapply lookup_lt_Some.
  - rewrite list_lookup_insert_ne by done.
    apply Hown. by apply Hothers.
Qed.

Lemma reachable_owner_inv pool s0 c :
  reachable (initial pool s0) c → config_inv pool c ∧ owner_inv c.
Proof.
  intros Hreach. unfold reachable in Hreach.
  assert (Hgen : ∀ c0, rtc step c0 c → config_inv pool c0 ∧ owner_inv c0 →
                       config_inv pool c ∧ owner_inv c).
  { clear. intros c0. induction 1 as [|c0 c1 c2 [i Hstep] _ IH]; [done|].
    intros [Hinv Hown]. apply IH. split.
    - apply (step_inv pool c0); [done|by exists i].
    - by apply (step_owner_inv pool i c0). }
  apply (Hgen _ Hreach). split; [apply initial_inv|].
  intros lk j Hj. done.
Qed.

Lemma sched_step_enabled j c t ins rest :
  threads c !! j = Some t →
  prog t = ins :: rest →
  (∀ lk, ins = Acquire lk → owner c lk = None) →
  is_Some (sched_step j c).
Proof.
  intros Ht Hp Hfree. unfold sched_step. rewrite Ht, Hp.
  destruct ins as [lk|lk| | | | | | | | |].
  1: by rewrite (Hfree lk eq_refl).
  1: done.
  all: match goal with
       | |- is_Some (match ?e with _ => _ end) => by destruct e as [[? ?]|?]
       end.
Qed.

(** The threads never block each other for good: in every reachable
    configuration in which some thread has not finished its method, some
    thread can make a step. *)
Theorem no_deadlock (pool : list method) (s0 : clusterManager) (c : config)
    (i : nat) (t : thread) :
  reachable (initial pool s0) c →
  threads c !! i = Some t →
  prog t ≠ [] →
  ∃ j c', sched_step j c = Some c'.
Proof.
  intros [Hinv Hown]%reachable_owner_inv Ht Hp.
  destruct (prog t) as [|ins rest] eqn:Hprog; [done|].
  assert (Hstep : ∀ j tj insj restj,
            threads c !! j = Some tj → prog tj = insj :: restj →
            (∀ lk, insj = Acquire lk → owner c lk = None) →
            ∃ j c', sched_step j c = Some c').
  { intros j tj insj restj Htj Hpj Hfree.
    destruct (sched_step_enabled j c tj insj restj Htj Hpj Hfree) as [c' Hc'].
    by exists j, c'. }
  assert (Hcases : (∃ lk j, ins = Acquire lk ∧ owner c lk = Some j) ∨
                   (∀ lk, ins = Acquire lk → owner c lk = None)).
  { destruct ins as [lk|lk| | | | | | | | |]; try (right; intros lk' Heq; discriminate).
    destruct (owner c lk) as [j|] eqn:Hj; [left; by exists lk, j|].
    right. by intros lk' [= <-]. }
  destruct Hcases as [(lk & j & -> & Hj)|Hfree].
  - (* the lock is taken: its owner can step *)
    destruct (Hown lk j Hj) as (tj & restj & Htj & Hpj).
    destruct (Hinv _ _ Htj) as (mj & _ & Hinvj).
    destruct (thread_inv_holds _ _ _ _ _ Hinvj Hj) as (rest' & Hp' & Hfr & _).
    destruct rest' as [|x rest'].
    + apply (Hstep j tj (Release lk) []); [done|done|done].
    + apply (Hstep j tj x (rest' ++ [Release lk])); [done|done|].
      intros lk' ->. by destruct (lock_free_head _ _ Hfr lk').
  - by apply (Hstep i t ins rest).
Qed.

Lemma no_deadlock_witness :
  ∃ c, run_schedule interrupted_rotation (initial three_threads registered_AC) = Some c ∧
       ∃ j c', sched_step j c = Some c'.
Proof.
  eexists. split; [reflexivity|].
  eapply (no_deadlock three_threads registered_AC _ 0%nat).
  - apply (run_schedule_reachable interrupted_rotation). reflexivity.
  - reflexivity.
  - discriminate.
Defined.

(** A thread holds at most one of the two locks at a time, and none once
    its method has ended, whether it ended normally or by an exception. *)
Theorem locks_released (pool : list method) (s0 : clusterManager) (c : config) :
  reachable (initial pool s0) c →
  (∀ i lk lk', owner c lk = Some i → owner c lk' = Some i → lk = lk') ∧
  (∀ i t lk, threads c !! i = Some t → prog t = [] → owner c lk ≠ Some i).
Proof.
  intros [Hinv Hown]%reachable_owner_inv. split.
  - intros i lk lk' Hlk Hlk'.
    destruct (Hown lk i Hlk) as (t & rest & Ht & _).
    destruct (Hinv _ _ Ht) as (m & _ & Hinvi).
    destruct (thread_inv_holds _ _ _ _ _ Hinvi Hlk') as (_ & _ & _ & Honly).
    by apply Honly.
  - intros i t lk Ht Hp Hlk.
    destruct (Hown lk i Hlk) as (t' & rest & Ht' & Hp').
    rewrite Ht in Ht'. injection Ht' as <-. rewrite Hp in Hp'.
    by destruct rest.
Qed.

Lemma locks_released_witness :
  ∃ c, run_schedule [0; 0; 0; 0; 0; 0; 0]%nat (initial two_writers registered_AC) = Some c ∧
       (∀ i lk lk', owner c lk = Some i → owner c lk' = Some i → lk = lk') ∧
       (∀ i t lk, threads c !! i = Some t → prog t = [] → owner c lk ≠ Some i).
Proof.
  eexists. split; [reflexivity|].
  eapply (locks_released two_writers registered_AC).
  apply (run_schedule_reachable [0; 0; 0; 0; 0; 0; 0]%nat). reflexivity.
Defined.

(** ** The performance monitor *)

Lemma durations_cons ty x ms :
  durations ty (x :: ms)
  = match m_outcome x with
    | Returned _ =>
        if decide (m_type x = ty) then (m_end x - m_start x) :: durations ty ms
        else durations ty ms
    | Raised _ => durations ty ms
    end.
Proof.
  unfold durations. cbn. destruct (m_outcome x); [|done]. by case_decide.
Qed.

Lemma run_measurements_from (ms : list measurement) (m : PerformanceMonitor) :
  (run_measurements ms m).1 = m_outcome <$> ms ∧
  upload_times (run_measurements ms m).2 = upload_times m ++ durations "upload" ms ∧
  download_times (run_measurements ms m).2
  = download_times m ++ durations "download" ms ∧
  list_times (run_measurements ms m).2 = list_times m ++ durations "list" ms ∧
  delete_times (run_measurements ms m).2 = delete_times m ++ durations "delete" ms.
Proof.
  revert m. induction ms as [|x ms IH]; intros m.
  - cbn. by rewrite !app_nil_r.
  - cbn [run_measurements].
    destruct (measure_execution_time _ _ _ _ m) as [r m'] eqn:Hm.
    specialize (IH m'). destruct (run_measurements ms m') as [rs m''].
    cbn [fst snd] in *. destruct IH as (-> & -> & -> & -> & ->).
    rewrite !durations_cons, fmap_cons.
    unfold measure_execution_time in Hm.
    destruct (m_outcome x) as [v|msg]; injection Hm as <- <-; [|done].
    repeat case_decide; try congruence; cbn; by rewrite <- ?app_assoc.
Qed.

(** After a reset, each of the four lists holds, in call order, the
    execution times of exactly the calls of its operation type that
    returned: a call whose operation raised, or whose type is none of the
    four, is recorded nowhere; and every call hands back what its operation
    returned or raised. *)
Theorem measurements_recorded (ms : list measurement) (m : PerformanceMonitor) :
  (run_measurements ms (reset_metrics m)).1 = m_outcome <$> ms ∧
  upload_times (run_measurements ms (reset_metrics m)).2 = durations "upload" ms ∧
  download_times (run_measurements ms (reset_metrics m)).2 = durations "download" ms ∧
  list_times (run_measurements ms (reset_metrics m)).2 = durations "list" ms ∧
  delete_times (run_measurements ms (reset_metrics m)).2 = durations "delete" ms.
Proof. apply (run_measurements_from ms (reset_metrics m)). Qed.

(** ** What the calls leave alone *)

Lemma call_frame c s (l : loc) :
  match c with AddNode l' _ _ => l' ≠ l | _ => True end →
  node_timeout (run_calls [c] s).2 = node_timeout s ∧
  (∀ k, k ≠ "status" → heap (run_calls [c] s).2 l !! k = heap s l !! k) ∧
  (heap (run_calls [c] s).2 l !! "status" = heap s l !! "status" ∨
   heap (run_calls [c] s).2 l !! "status" = Some (VStr "inactive")).
Proof.
  destruct c as [l' uid now|i|now|now]; cbn.
  - intros Hne. rewrite heap_insert_ne by done. by repeat split; [..|left].
  - intros _. unfold remove_node. destruct (comprehension _ _); cbn;
      by repeat split; [..|left].
  - intros _. destruct (select_node_nodes_perm now s) as (_ & -> & ->).
    by repeat split; [..|left].
  - intros _. rewrite health_sweep_timeout, health_sweep_heap.
    split; [done|]. split; [intros k Hk; by apply sweep_loop_frame|].
    destruct (sweep_loop_status (node_timeout s) now (nodes s) (heap s) l)
      as [Heq|[Hin _]]; [by left|by right].
Qed.

Lemma calls_frame cs s (l : loc) :
  l ∉ added_dicts cs →
  node_timeout (run_calls cs s).2 = node_timeout s ∧
  (∀ k, k ≠ "status" → heap (run_calls cs s).2 l !! k = heap s l !! k) ∧
  (heap (run_calls cs s).2 l !! "status" = heap s l !! "status" ∨
   heap (run_calls cs s).2 l !! "status" = Some (VStr "inactive")).
Proof.
  revert s. induction cs as [|c cs IH]; intros s Hl; [by repeat split; [..|left]|].
  rewrite run_calls_cons.
  assert (Hc : match c with AddNode l' _ _ => l' ≠ l | _ => True end ∧
               l ∉ added_dicts cs).
  { destruct c; cbn in Hl; try done. apply not_elem_of_cons in Hl as [? ?]. by split. }
  destruct Hc as [Hc Hcs].
  destruct (call_frame c s l Hc) as (Ht & Hk & Hst).
  destruct (IH (run_calls [c] s).2 Hcs) as (Ht' & Hk' & Hst').
  split; [congruence|]. split.
  - intros k Hne. rewrite Hk' by done. by apply Hk.
  - destruct Hst' as [-> | ->]; [done|by right].
Qed.

(** The calls other than admitting a dict leave that dict's fields alone,
    except the status, which they can only set to inactive: through any
    sequence of calls that does not pass the dict to [add_node], its id, its
    heartbeat and the caller's fields stay as they were. *)
Theorem node_fields_frame (cs : list call) (s : clusterManager) (l : loc) :
  l ∉ added_dicts cs →
  (∀ k, k ≠ "status" → heap (run_calls cs s).2 l !! k = heap s l !! k) ∧
  (heap (run_calls cs s).2 l !! "status" = heap s l !! "status" ∨
   heap (run_calls cs s).2 l !! "status" = Some (VStr "inactive")).
Proof. intros Hl. by destruct (calls_frame cs s l Hl) as (_ & ? & ?). Qed.

Lemma node_fields_frame_witness :
  (∀ k, k ≠ "status" →
        heap (run_calls [HealthSweep 40; SelectNode 40; RemoveNode "id-B"]
                registered_ABC).2 node_B !! k
        = heap registered_ABC node_B !! k) ∧
  (heap (run_calls [HealthSweep 40; SelectNode 40; RemoveNode "id-B"]
           registered_ABC).2 node_B !! "status"
   = heap registered_ABC node_B !! "status" ∨
   heap (run_calls [HealthSweep 40; SelectNode 40; RemoveNode "id-B"]
           registered_ABC).2 node_B !! "status"
   = Some (VStr "inactive")).
Proof.
  apply (node_fields_frame [HealthSweep 40; SelectNode 40; RemoveNode "id-B"]
           registered_ABC node_B).
  apply not_elem_of_nil.
Defined.

Lemma unhealthy_later timeout now now' (d d' : dict) :
  now ≤ now' →
  d' !! "last_heartbeat" = d !! "last_heartbeat" →
  (d' !! "status" = d !! "status" ∨ d' !! "status" = Some (VStr "inactive")) →
  fresh_active timeout now d = false →
  fresh_active timeout now' d' = false.
Proof.
  intros Hle Hhb Hst. unfold fresh_active. rewrite Hhb.
  destruct (d !! "last_heartbeat") as [[|t|]|];
    try by (intros _; destruct (d' !! "status")).
  destruct Hst as [->| ->].
  - destruct (d !! "status") as [st|]; [|done].
    rewrite !andb_false_iff, !bool_decide_eq_false. intros [?|?]; [by left|right; lia].
  - intros _. done.
Qed.

(** The class has no call that refreshes a heartbeat, so a node that is not
    healthy stays so: through any sequence of calls that does not admit its
    dict again, and at any later time, no successful [get_healthy_nodes]
    returns it. *)
Theorem unhealthy_stays_unhealthy (cs : list call) (s : clusterManager)
    (l : loc) (now now' : Z) :
  l ∉ added_dicts cs →
  now ≤ now' →
  fresh_active (node_timeout s) now (heap s l) = false →
  ∀ m r, get_healthy_nodes m now' (run_calls cs s).2 = Ok r → l ∉ r.
Proof.
  intros Hl Hle Hun m r Hget Hin.
  destruct (calls_frame cs s l Hl) as (Ht & Hk & Hst).
  apply get_healthy_nodes_inv in Hget as [Hc _].
  apply (comprehension_elem _ _ _ _ Hc) in Hin.
  apply node_is_healthy_fresh_active in Hin. rewrite Ht in Hin.
  rewrite (unhealthy_later _ now now' (heap s l)) in Hin; [done|done| |done|done].
  by apply Hk.
Qed.

Lemma unhealthy_stays_unhealthy_witness :
  get_healthy_nodes 1 50
    (run_calls [SelectNode 41; AddNode 3%nat "id-D" 42] swept_ABC).2
  = Ok [node_C; node_A; 3%nat] ∧
  node_B ∉ [node_C; node_A; 3%nat].
Proof.
  split; [reflexivity|].
  apply (unhealthy_stays_unhealthy [SelectNode 41; AddNode 3%nat "id-D" 42]
           swept_ABC node_B 40 50 ltac:(apply (bool_decide_unpack _); vm_compute; exact I)
           ltac:(lia) eq_refl 1 [node_C; node_A; 3%nat]).
  reflexivity.
Defined.

(** In particular every admitted node expires: from the time of its
    admission plus the timeout on, whatever calls are made in between, it is
    not returned as healthy unless its dict is admitted again. *)
Theorem admitted_node_expires (cs : list call) (s : clusterManager)
    (l : loc) (uid : string) (now now' : Z) :
  l ∉ added_dicts cs →
  now + node_timeout s ≤ now' →
  ∀ m r, get_healthy_nodes m now' (run_calls cs (add_node l uid now s).2).2 = Ok r →
         l ∉ r.
Proof.
  intros Hl Hle m r Hget Hin.
  destruct (calls_frame cs (add_node l uid now s).2 l Hl) as (Ht & Hk & Hst).
  apply get_healthy_nodes_inv in Hget as [Hc _].
  apply (comprehension_elem _ _ _ _ Hc) in Hin.
  apply node_is_healthy_fresh_active in Hin. rewrite Ht in Hin.
  rewrite (unhealthy_later _ (now + node_timeout s) now'
             (heap (add_node l uid now s).2 l)) in Hin; [done|done| |done|].
  - by apply Hk.
  - cbn. rewrite heap_insert_eq. unfold fresh_active.
    rewrite lookup_insert_eq. rewrite lookup_insert_ne, lookup_insert_eq by done.
    rewrite (bool_decide_eq_false_2 (now + node_timeout s - now < node_timeout s))
      by lia.
    apply andb_false_r.
Qed.

Lemma admitted_node_expires_witness :
  get_healthy_nodes 1 40
    (run_calls [SelectNode 11] (add_node 3%nat "id-D" 10 swept_ABC).2).2
  = Ok [node_C; node_A] ∧
  3%nat ∉ [node_C; node_A].
Proof.
  split; [reflexivity|].
  apply (admitted_node_expires [SelectNode 11] swept_ABC 3%nat "id-D" 10 40
           ltac:(apply not_elem_of_nil) ltac:(reflexivity) 1 [node_C; node_A]).
  reflexivity.
Defined.
